(** * orderedpool: an order-preserving, bounded worker pool

    A shallow embedding of [map_ordered.go] and the verification of its
    specification.  The Go program is a set of goroutines that talk over
    buffered channels; it is modelled as a labelled transition system
    whose state holds the program counter and the local variables of every
    goroutine together with the contents of every channel.  A label names
    the goroutine that moves and, at a [select], the case that fires. *)

From stdpp Require Import gmap list strings.
From Stdlib Require Import ZArith Lia.

Local Open Scope Z_scope.

(** ** Machine integers *)

(** Go's [int] on a 64-bit platform: [x++] wraps in two's complement. *)
Definition int_min : Z := - 2 ^ 63.
Definition int_max : Z := 2 ^ 63 - 1.
Definition wrap_int (x : Z) : Z := (x - int_min) `mod` 2 ^ 64 + int_min.
Definition int_incr (x : Z) : Z := wrap_int (x + 1).

(** ** Buffered channels *)

Record chan (A : Type) := Chan {
  chan_buf : list A;       (* queued elements, oldest first *)
  chan_cap : Z;            (* capacity given to [make] *)
  chan_closed : bool
}.
Arguments Chan {A} _ _ _.
Arguments chan_buf {A} _.
Arguments chan_cap {A} _.
Arguments chan_closed {A} _.

Inductive SendResult (A : Type) :=
| SendOk (c : chan A)
| SendBlocked
| SendPanic.               (* send on a closed channel *)
Arguments SendOk {A} _.
Arguments SendBlocked {A}.
Arguments SendPanic {A}.

Inductive RecvResult (A : Type) :=
| RecvOk (x : A) (c : chan A)
| RecvClosed               (* closed and drained: [ok] is false *)
| RecvBlocked.
Arguments RecvOk {A} _ _.
Arguments RecvClosed {A}.
Arguments RecvBlocked {A}.

(** The channel that [make(chan A, size)] returns. *)
Definition empty_chan {A : Type} (size : Z) : chan A := Chan [] size false.

(** [make(chan A, size)] panics ("makechan: size out of range") when [size]
    is negative or the buffer of [size] elements is more than the runtime
    allocates.  [limit] is the largest capacity the runtime accepts for the
    element type [A]; it depends on the size of an element and on the
    platform.  [None] is the panic. *)
Definition make_chan {A : Type} (limit size : Z) : option (chan A) :=
  if (size <? 0) || (limit <? size) then None else Some (empty_chan size).

(** The limits of [make] for the three element types of the pipeline. *)
Record Limits := mkLimits {
  max_Result : Z;            (* [chan Result[R]], line 45 *)
  max_indexedTask : Z;       (* [chan indexedTask[T]], line 51 *)
  max_indexedResult : Z      (* [chan indexedResult[R]], line 52 *)
}.

(** The runtime makes all three channels with capacity [n]. *)
Definition accepts (lim : Limits) (n : Z) : Prop :=
  0 ≤ n ∧ n ≤ max_Result lim ∧ n ≤ max_indexedTask lim ∧ n ≤ max_indexedResult lim.

Definition chan_has_room {A : Type} (c : chan A) : bool :=
  Z.of_nat (length (chan_buf c)) <? chan_cap c.

Definition chan_send {A : Type} (c : chan A) (x : A) : SendResult A :=
  if chan_closed c then SendPanic
  else if chan_has_room c
       then SendOk (Chan (chan_buf c ++ [x]) (chan_cap c) false)
       else SendBlocked.

Definition chan_recv {A : Type} (c : chan A) : RecvResult A :=
  match chan_buf c with
  | x :: rest => RecvOk x (Chan rest (chan_cap c) (chan_closed c))
  | [] => if chan_closed c then RecvClosed else RecvBlocked
  end.

(** [close] of a closed channel panics: [None]. *)
Definition chan_close {A : Type} (c : chan A) : option (chan A) :=
  if chan_closed c then None else Some (Chan (chan_buf c) (chan_cap c) true).

(** ** Data model *)

Record Options := mkOptions {
  Workers : Z;
  MaxInFlight : Z;
  EarlyStopN : Z;
  PanicAsError : bool;
  TaskTimeout : Z            (* time.Duration, nanoseconds *)
}.

(** Lines 38-43: the two normalisations, in this order. *)
Definition normalize (opt : Options) : Options :=
  let opt1 :=
    if Workers opt <=? 0
    then mkOptions 1 (MaxInFlight opt) (EarlyStopN opt) (PanicAsError opt) (TaskTimeout opt)
    else opt in
  if MaxInFlight opt1 <? Workers opt1
  then mkOptions (Workers opt1) (Workers opt1) (EarlyStopN opt1) (PanicAsError opt1) (TaskTimeout opt1)
  else opt1.

(** The context handed to the transform: the pipeline's own, or a child
    with a deadline (lines 136-140). *)
Inductive TaskContext :=
| CtxRoot
| CtxWithTimeout (d : Z).

Definition taskCtx (opt : Options) : TaskContext :=
  if 0 <? TaskTimeout opt then CtxWithTimeout (TaskTimeout opt) else CtxRoot.

Section Pool.

Variable lim : Limits.

(** [T]: input items; [R]: result values, with the zero value [zeroR] of
    [var res R]; [E]: the errors a transform returns that are not a
    [*PanicError]; [Any]: the non-nil values [recover()] yields. *)
Context {T R E Any : Type}.
Variable zeroR : R.

Record PanicError := mkPanicError { Panic : Any }.

Definition Error (e : PanicError) : string := "panic occurred".

(** A value of Go's [error] interface other than nil. *)
Inductive error :=
| ErrOther (e : E)
| ErrPanic (e : PanicError).

Record Result := mkResult {
  Value : R;
  Err : option error         (* [None] is nil *)
}.

Record indexedTask := mkTask {
  task_index : Z;
  task_value : T
}.

Record indexedResult := mkIndexed {
  res_index : Z;
  res_res : Result
}.

(** What one call of the transform does.  The transform is taken as a
    function of the context it is given and of the item: what it does with
    an item does not depend on when, or by which worker, it is called. *)
Inductive Outcome :=
| Returns (res : R) (err : option error)
| Panics (r : Any).

Variable fn : TaskContext -> T -> Outcome.

(** Lines 142-156: the call under [recover].  [inr r] is the re-panic. *)
Definition invoke (opt : Options) (v : T) : Result + Any :=
  match fn (taskCtx opt) v with
  | Returns res err => inl (mkResult res err)
  | Panics r =>
      if PanicAsError opt
      then inl (mkResult zeroR (Some (ErrPanic (mkPanicError r))))
      else inr r
  end.

(** ** Goroutines *)

(** The submitter (lines 68-80). *)
Inductive SubPc :=
| SubRange                   (* at [for val := range input] *)
| SubSelect (val : T)        (* at the [select], holding [val] *)
| SubDone.                   (* returned; [taskChan] closed *)

(** A worker (lines 116-169). *)
Inductive WorkerPc :=
| WSelect                    (* at the [select] of line 127 *)
| WCall (task : indexedTask) (* about to call [fn] *)
| WSend (r : indexedResult)  (* at the [select] of line 162 *)
| WDone.                     (* returned; [wg.Done()] run *)

(** How the collector left its loop. *)
Inductive Exit :=
| ExitDrained                (* [resultChan] closed and drained *)
| ExitEarlyStop              (* line 101 *)
| ExitCancelled.             (* line 96 *)

(** The collector (lines 83-110). *)
Inductive CollPc :=
| CRange                     (* at [for res := range resultChan] *)
| CLoop                      (* at the lookup of line 92 *)
| CSelect (item : Result)    (* at the [select] of line 94 *)
| CDone (why : Exit).        (* returned; [output] closed *)

Inductive Crash :=
| CrashPanic (r : Any)       (* a worker re-panicked (line 151) *)
| CrashChannel.              (* send on, or close of, a closed channel *)

Record State := mkState {
  (* the caller's side *)
  ctxDone : bool;                     (* [ctx] is cancelled *)
  input : list T;                     (* items still to come on [input] *)
  inputCloses : bool;                 (* the caller closes [input] after them *)
  received : list Result;             (* what the caller has read from [output] *)
  (* submitter *)
  sub : SubPc;
  index : Z;
  taskChan : chan indexedTask;
  (* worker pool *)
  workers : list WorkerPc;
  waiting : bool;                     (* the goroutine of lines 62-65 is at [wg.Wait()] *)
  resultChan : chan indexedResult;
  (* collector *)
  coll : CollPc;
  buffer : gmap Z Result;
  nextIndex : Z;
  successCount : Z;
  output : chan Result;
  (* history: every send on [output], with the index it was stored under *)
  sent : list indexedResult;
  (* the process died *)
  crashed : option Crash
}.

(** Field updates. *)
Definition set_ctxDone (s : State) : State :=
  mkState true (input s) (inputCloses s) (received s) (sub s) (index s) (taskChan s)
    (workers s) (waiting s) (resultChan s) (coll s) (buffer s) (nextIndex s)
    (successCount s) (output s) (sent s) (crashed s).

Definition set_caller (rcv : list Result) (out : chan Result) (s : State) : State :=
  mkState (ctxDone s) (input s) (inputCloses s) rcv (sub s) (index s) (taskChan s)
    (workers s) (waiting s) (resultChan s) (coll s) (buffer s) (nextIndex s)
    (successCount s) out (sent s) (crashed s).

Definition set_submitter (inp : list T) (pc : SubPc) (i : Z) (tc : chan indexedTask)
    (s : State) : State :=
  mkState (ctxDone s) inp (inputCloses s) (received s) pc i tc
    (workers s) (waiting s) (resultChan s) (coll s) (buffer s) (nextIndex s)
    (successCount s) (output s) (sent s) (crashed s).

Definition set_worker (w : nat) (pc : WorkerPc) (tc : chan indexedTask)
    (rc : chan indexedResult) (s : State) : State :=
  mkState (ctxDone s) (input s) (inputCloses s) (received s) (sub s) (index s) tc
    (<[w := pc]> (workers s)) (waiting s) rc (coll s) (buffer s) (nextIndex s)
    (successCount s) (output s) (sent s) (crashed s).

Definition set_waiter (rc : chan indexedResult) (s : State) : State :=
  mkState (ctxDone s) (input s) (inputCloses s) (received s) (sub s) (index s) (taskChan s)
    (workers s) false rc (coll s) (buffer s) (nextIndex s)
    (successCount s) (output s) (sent s) (crashed s).

Definition set_collector (rc : chan indexedResult) (pc : CollPc) (b : gmap Z Result)
    (n c : Z) (out : chan Result) (h : list indexedResult) (s : State) : State :=
  mkState (ctxDone s) (input s) (inputCloses s) (received s) (sub s) (index s) (taskChan s)
    (workers s) (waiting s) rc pc b n c out h (crashed s).

Definition set_crashed (c : Crash) (s : State) : State :=
  mkState (ctxDone s) (input s) (inputCloses s) (received s) (sub s) (index s) (taskChan s)
    (workers s) (waiting s) (resultChan s) (coll s) (buffer s) (nextIndex s)
    (successCount s) (output s) (sent s) (Some c).

(** ** Steps *)

Inductive Label :=
| Cancel                     (* the caller cancels [ctx] *)
| Consume                    (* the caller receives from [output] *)
| SubNext                    (* line 72 *)
| SubSend                    (* line 76 *)
| SubCtxDone                 (* line 74 *)
| WorkerRecv (w : nat)       (* line 130 *)
| WorkerCall (w : nat)       (* lines 136-160 *)
| WorkerSend (w : nat)       (* line 165 *)
| WorkerCtxDone (w : nat)    (* lines 128 and 163 *)
| WaitClose                  (* lines 63-64 *)
| CollNext                   (* lines 87-88 *)
| CollLookup                 (* lines 92-93 and 106-107 *)
| CollEmit                   (* lines 97-105 *)
| CollCtxDone.               (* line 95 *)

(** [return] in the submitter, then the deferred [close(taskChan)]. *)
Definition submitter_return (s : State) : State :=
  match chan_close (taskChan s) with
  | Some tc => set_submitter (input s) SubDone (index s) tc s
  | None => set_crashed CrashChannel s
  end.

Definition submitter (l : Label) (s : State) : option State :=
  match l, sub s with
  | SubNext, SubRange =>
      match input s with
      | val :: rest => Some (set_submitter rest (SubSelect val) (index s) (taskChan s) s)
      | [] => if inputCloses s then Some (submitter_return s) else None
      end
  | SubCtxDone, SubSelect _ =>
      if ctxDone s then Some (submitter_return s) else None
  | SubSend, SubSelect val =>
      match chan_send (taskChan s) (mkTask (index s) val) with
      | SendOk tc => Some (set_submitter (input s) SubRange (int_incr (index s)) tc s)
      | SendBlocked => None
      | SendPanic => Some (set_crashed CrashChannel s)
      end
  | _, _ => None
  end.

Definition worker (opt : Options) (l : Label) (s : State) : option State :=
  match l with
  | WorkerRecv w =>
      match workers s !! w with
      | Some WSelect =>
          match chan_recv (taskChan s) with
          | RecvOk task tc => Some (set_worker w (WCall task) tc (resultChan s) s)
          | RecvClosed => Some (set_worker w WDone (taskChan s) (resultChan s) s)
          | RecvBlocked => None
          end
      | _ => None
      end
  | WorkerCall w =>
      match workers s !! w with
      | Some (WCall task) =>
          match invoke opt (task_value task) with
          | inl r =>
              Some (set_worker w (WSend (mkIndexed (task_index task) r))
                      (taskChan s) (resultChan s) s)
          | inr r => Some (set_crashed (CrashPanic r) s)
          end
      | _ => None
      end
  | WorkerSend w =>
      match workers s !! w with
      | Some (WSend r) =>
          match chan_send (resultChan s) r with
          | SendOk rc => Some (set_worker w WSelect (taskChan s) rc s)
          | SendBlocked => None
          | SendPanic => Some (set_crashed CrashChannel s)
          end
      | _ => None
      end
  | WorkerCtxDone w =>
      match workers s !! w with
      | Some WSelect | Some (WSend _) =>
          if ctxDone s
          then Some (set_worker w WDone (taskChan s) (resultChan s) s)
          else None
      | _ => None
      end
  | _ => None
  end.

Definition is_WDone (pc : WorkerPc) : bool :=
  match pc with WDone => true | _ => false end.

(** Lines 62-65: [wg.Wait()] returns once every worker has run
    [wg.Done()]. *)
Definition waiter (l : Label) (s : State) : option State :=
  match l with
  | WaitClose =>
      if waiting s && forallb is_WDone (workers s)
      then match chan_close (resultChan s) with
           | Some rc => Some (set_waiter rc s)
           | None => Some (set_crashed CrashChannel s)
           end
      else None
  | _ => None
  end.

(** [return] in the collector, then the deferred [close(output)]. *)
Definition collector_return (why : Exit) (n c : Z) (out : chan Result)
    (h : list indexedResult) (s : State) : State :=
  match chan_close out with
  | Some out' => set_collector (resultChan s) (CDone why) (buffer s) n c out' h s
  | None => set_crashed CrashChannel s
  end.

Definition is_nil (e : option error) : bool :=
  match e with None => true | Some _ => false end.

Definition collector (opt : Options) (l : Label) (s : State) : option State :=
  match l, coll s with
  | CollNext, CRange =>
      match chan_recv (resultChan s) with
      | RecvOk r rc =>
          Some (set_collector rc CLoop (<[res_index r := res_res r]> (buffer s))
                  (nextIndex s) (successCount s) (output s) (sent s) s)
      | RecvClosed =>
          Some (collector_return ExitDrained (nextIndex s) (successCount s)
                  (output s) (sent s) s)
      | RecvBlocked => None
      end
  | CollLookup, CLoop =>
      match buffer s !! nextIndex s with
      | Some item =>
          Some (set_collector (resultChan s) (CSelect item) (delete (nextIndex s) (buffer s))
                  (nextIndex s) (successCount s) (output s) (sent s) s)
      | None =>
          Some (set_collector (resultChan s) CRange (buffer s)
                  (nextIndex s) (successCount s) (output s) (sent s) s)
      end
  | CollCtxDone, CSelect _ =>
      if ctxDone s
      then Some (collector_return ExitCancelled (nextIndex s) (successCount s)
                   (output s) (sent s) s)
      else None
  | CollEmit, CSelect item =>
      match chan_send (output s) item with
      | SendOk out =>
          let h := sent s ++ [mkIndexed (nextIndex s) item] in
          if is_nil (Err item) then
            let c := int_incr (successCount s) in
            if (0 <? EarlyStopN opt) && (EarlyStopN opt <=? c)
            then Some (collector_return ExitEarlyStop (nextIndex s) c out h s)
            else Some (set_collector (resultChan s) CLoop (buffer s)
                         (int_incr (nextIndex s)) c out h s)
          else Some (set_collector (resultChan s) CLoop (buffer s)
                       (int_incr (nextIndex s)) (successCount s) out h s)
      | SendBlocked => None
      | SendPanic => Some (set_crashed CrashChannel s)
      end
  | _, _ => None
  end.

(** The caller: cancels [ctx], or takes the next element of [output]. *)
Definition caller (l : Label) (s : State) : option State :=
  match l with
  | Cancel => if ctxDone s then None else Some (set_ctxDone s)
  | Consume =>
      match chan_recv (output s) with
      | RecvOk r out => Some (set_caller (received s ++ [r]) out s)
      | _ => None
      end
  | _ => None
  end.

(** One step of the whole program.  A crashed process does nothing. *)
Definition step (opt : Options) (l : Label) (s : State) : option State :=
  match crashed s with
  | Some _ => None
  | None =>
      match l with
      | Cancel | Consume => caller l s
      | SubNext | SubSend | SubCtxDone => submitter l s
      | WorkerRecv _ | WorkerCall _ | WorkerSend _ | WorkerCtxDone _ => worker opt l s
      | WaitClose => waiter l s
      | CollNext | CollLookup | CollEmit | CollCtxDone => collector opt l s
      end
  end.

Fixpoint run (opt : Options) (ls : list Label) (s : State) : option State :=
  match ls with
  | [] => Some s
  | l :: ls' =>
      match step opt l s with
      | Some s' => run opt ls' s'
      | None => None
      end
  end.

(** Lines 54-59 and 83-85: the state when [MapOrdered] has made its three
    channels and started its goroutines.  [cancelled] says whether [ctx] is
    already done, [items] are the elements the caller sends on [input],
    [closes] whether the caller closes [input] after them; [opt] is already
    normalised. *)
Definition start (cancelled : bool) (items : list T) (closes : bool)
    (opt : Options) (output : chan Result) (taskChan : chan indexedTask)
    (resultChan : chan indexedResult) : State :=
  mkState cancelled items closes []
    SubRange 0 taskChan
    (replicate (Z.to_nat (Workers opt)) WSelect) true resultChan
    CRange ∅ 0 0 output
    [] None.

(** [start] on the channels that [make] returns. *)
Definition started (cancelled : bool) (items : list T) (closes : bool)
    (opt : Options) : State :=
  start cancelled items closes opt (empty_chan (MaxInFlight opt))
    (empty_chan (MaxInFlight opt)) (empty_chan (MaxInFlight opt)).

(** Where a [make] panics: [output] is made by [MapOrdered] itself (line
    45), which then panics in its caller and starts nothing; [taskChan] and
    [resultChan] are made by the goroutine it has started (lines 51 and
    52), whose panic nothing recovers: the process dies. *)
Inductive MakeSite :=
| MakeOutput
| MakeTaskChan
| MakeResultChan.

Inductive Launch :=
| Launched (s : State)       (* the pipeline runs, from [s] *)
| MakePanics (site : MakeSite).

(** Lines 38-59. *)
Definition MapOrdered (cancelled : bool) (items : list T) (closes : bool)
    (opt : Options) : Launch :=
  let opt := normalize opt in
  match make_chan (max_Result lim) (MaxInFlight opt) with
  | None => MakePanics MakeOutput
  | Some output =>
      match make_chan (max_indexedTask lim) (MaxInFlight opt) with
      | None => MakePanics MakeTaskChan
      | Some taskChan =>
          match make_chan (max_indexedResult lim) (MaxInFlight opt) with
          | None => MakePanics MakeResultChan
          | Some resultChan =>
              Launched (start cancelled items closes opt output taskChan resultChan)
          end
      end
  end.

(** The schedule [ls] run from what [MapOrdered] has launched. *)
Definition run_from (opt : Options) (ls : list Label) (l : Launch) : option State :=
  match l with
  | Launched s => run opt ls s
  | MakePanics _ => None
  end.

(** The states an execution of [MapOrdered] passes through. *)
Definition reachable (cancelled : bool) (items : list T) (closes : bool)
    (opt : Options) (s : State) : Prop :=
  ∃ ls, run_from (normalize opt) ls (MapOrdered cancelled items closes opt) = Some s.

(** The state a schedule leads to ([s] itself when the schedule names a
    step that cannot be taken). *)
Definition state_after (opt : Options) (ls : list Label) (s : State) : State :=
  default s (run opt ls s).

(** ** Rest, and the bound on the length of executions *)

(** The pipeline and the reader of [output] can do nothing more; only a
    cancellation could still happen. *)
Definition quiescent (opt : Options) (s : State) : Prop :=
  ∀ l, l ≠ Cancel → step opt l s = None.

Definition sub_potential (pc : SubPc) : nat :=
  match pc with SubRange => 1 | SubSelect _ => 10 | SubDone => 0 end.

Definition worker_potential (pc : WorkerPc) : nat :=
  match pc with WSelect => 1 | WCall _ => 8 | WSend _ => 7 | WDone => 0 end.

Definition coll_potential (pc : CollPc) : nat :=
  match pc with CRange => 1 | CLoop => 2 | CSelect _ => 4 | CDone _ => 0 end.

(** An upper bound on the number of steps still possible: every element
    weighs the number of moves it has left, every goroutine the moves it
    makes without an element. *)
Definition potential (s : State) : nat :=
  (10 * length (input s) + sub_potential (sub s)
   + 8 * length (chan_buf (taskChan s))
   + sum_list_with worker_potential (workers s)
   + (if waiting s then 1 else 0)
   + 5 * length (chan_buf (resultChan s))
   + coll_potential (coll s) + 3 * size (buffer s)
   + length (chan_buf (output s))
   + (if ctxDone s then 0 else 1)
   + (if crashed s is Some _ then 0 else 1))%nat.

(** ** The sequential reference *)

(** The transform applied to each item in turn, in arrival order, each
    call made the way the worker makes it; a panic that is not converted
    ends the run. *)
Fixpoint sequential (opt : Options) (items : list T) : list Result :=
  match items with
  | [] => []
  | v :: rest =>
      match invoke opt v with
      | inl r => r :: sequential opt rest
      | inr _ => []
      end
  end.

(** ** Invariants *)

Section Invariants.

(** [items]: everything the caller sends on [input]; [opt]: the
    normalised options. *)
Variable items : list T.
Variable opt : Options.

(** The element the submitter has taken from [input] and not yet sent. *)
Definition held (pc : SubPc) : list T :=
  match pc with SubSelect val => [val] | _ => [] end.

Definition is_SubDone (pc : SubPc) : bool :=
  match pc with SubDone => true | _ => false end.

Definition is_CDone (pc : CollPc) : bool :=
  match pc with CDone _ => true | _ => false end.

(** A task carries the item that arrived at position [task_index]. *)
Definition task_ok (bound : Z) (t : indexedTask) : Prop :=
  0 ≤ task_index t < bound ∧ items !! Z.to_nat (task_index t) = Some (task_value t).

(** A result is what the transform gave for the item at position
    [res_index]. *)
Definition res_ok (bound : Z) (r : indexedResult) : Prop :=
  0 ≤ res_index r < bound ∧
  ∃ v, items !! Z.to_nat (res_index r) = Some v ∧ invoke opt v = inl (res_res r).

Definition worker_ok (bound : Z) (pc : WorkerPc) : Prop :=
  match pc with
  | WCall t => task_ok bound t
  | WSend r => res_ok bound r
  | _ => True
  end.

Definition is_success (r : Result) : bool := is_nil (Err r).

(** How many of the results are successes ([Err == nil]). *)
Definition successes (rs : list Result) : Z :=
  Z.of_nat (length (List.filter is_success rs)).

(** The results sent on [output] so far, in the order of the sends. *)
Definition emitted (s : State) : list Result := map res_res (sent s).

Record safe (s : State) : Prop := {
  safe_index : 0 ≤ index s ≤ Z.of_nat (length items);
  safe_input : is_SubDone (sub s) = false →
    drop (Z.to_nat (index s)) items = held (sub s) ++ input s;
  safe_tasks : Forall (task_ok (index s)) (chan_buf (taskChan s));
  safe_workers : Forall (worker_ok (index s)) (workers s);
  safe_results : Forall (res_ok (index s)) (chan_buf (resultChan s));
  safe_buffer : ∀ k r, buffer s !! k = Some r → res_ok (index s) (mkIndexed k r);
  safe_item : ∀ item, coll s = CSelect item →
    res_ok (index s) (mkIndexed (nextIndex s) item) ∧ buffer s !! nextIndex s = None;
  safe_sent : ∀ n r, sent s !! n = Some r →
    res_index r = Z.of_nat n ∧ res_ok (index s) r;
  safe_next : nextIndex s =
    Z.of_nat (length (sent s)) - (if coll s is CDone ExitEarlyStop then 1 else 0);
  safe_count : successCount s = successes (emitted s);
  safe_quota : 0 < EarlyStopN opt →
    if coll s is CDone ExitEarlyStop
    then successCount s = EarlyStopN opt ∧
         ∃ h r, emitted s = h ++ [r] ∧ is_success r = true
    else successCount s < EarlyStopN opt;
  safe_early : coll s = CDone ExitEarlyStop → 0 < EarlyStopN opt;
  safe_cancelled : coll s = CDone ExitCancelled → ctxDone s = true;
  safe_output : emitted s = received s ++ chan_buf (output s);
  safe_taskChan_closed : chan_closed (taskChan s) = is_SubDone (sub s);
  safe_resultChan_closed : chan_closed (resultChan s) = negb (waiting s);
  safe_waited : waiting s = false → Forall (λ pc, pc = WDone) (workers s);
  safe_output_closed : chan_closed (output s) = is_CDone (coll s);
  safe_caps : chan_cap (taskChan s) = MaxInFlight opt ∧
    chan_cap (resultChan s) = MaxInFlight opt ∧
    chan_cap (output s) = MaxInFlight opt;
  safe_lens : Z.of_nat (length (chan_buf (taskChan s))) ≤ MaxInFlight opt ∧
    Z.of_nat (length (chan_buf (resultChan s))) ≤ MaxInFlight opt ∧
    Z.of_nat (length (chan_buf (output s))) ≤ MaxInFlight opt;
  safe_pool : length (workers s) = Z.to_nat (Workers opt);
  safe_crash : ∀ c, crashed s = Some c →
    PanicAsError opt = false ∧
    ∃ w t r, workers s !! w = Some (WCall t) ∧
             fn (taskCtx opt) (task_value t) = Panics r ∧ c = CrashPanic r
}.

(** Where the result for index [i] is, once the submitter has sent
    the task. *)
Definition worker_holds (pc : WorkerPc) (i : Z) : Prop :=
  match pc with
  | WCall t => task_index t = i
  | WSend r => res_index r = i
  | _ => False
  end.

Definition located (s : State) (i : Z) : Prop :=
  (∃ n t, chan_buf (taskChan s) !! n = Some t ∧ task_index t = i) ∨
  (∃ w pc, workers s !! w = Some pc ∧ worker_holds pc i) ∨
  (∃ n r, chan_buf (resultChan s) !! n = Some r ∧ res_index r = i) ∨
  is_Some (buffer s !! i) ∨
  (∃ item, coll s = CSelect item ∧ i = nextIndex s) ∨
  i < Z.of_nat (length (sent s)).

(** What holds as long as [ctx] is not cancelled: nothing is dropped. *)
Record lossless (s : State) : Prop := {
  ll_located : ctxDone s = false → ∀ i, 0 ≤ i < index s → located s i;
  ll_absent : coll s = CRange ∨ coll s = CDone ExitDrained →
    buffer s !! nextIndex s = None;
  ll_drained : coll s = CDone ExitDrained →
    waiting s = false ∧ chan_buf (resultChan s) = [];
  ll_worker_done : ctxDone s = false → ∀ w, workers s !! w = Some WDone →
    sub s = SubDone ∧ chan_buf (taskChan s) = [];
  ll_sub_done : ctxDone s = false → sub s = SubDone →
    index s = Z.of_nat (length items)
}.

End Invariants.

End Pool.

(** * Concrete transforms and schedules *)

Module Examples.

Definition outcome : Type := @Outcome Z string string.

Definition double (_ : TaskContext) (x : Z) : outcome := Returns (2 * x) None.

Definition odd_fails (_ : TaskContext) (x : Z) : outcome :=
  if Z.odd x then Returns 0 (Some (ErrOther "odd")) else Returns (2 * x) None.

Definition boom (_ : TaskContext) (x : Z) : outcome := Panics "boom".

(** One item all the way through worker [w], read by the caller at once. *)
Definition pass (w : nat) : list Label :=
  [SubNext; SubSend; WorkerRecv w; WorkerCall w; WorkerSend w;
   CollNext; CollLookup; CollEmit; Consume; CollLookup].

(** [input] is closed and drained: the goroutines return one after the other. *)
Definition shutdown (n : nat) : list Label :=
  SubNext :: map WorkerRecv (seq 0 n) ++ [WaitClose; CollNext].

(** Two items, two workers; the second item is finished first and waits in
    the reorder buffer. *)
Definition overtaking : list Label :=
  [SubNext; SubSend; SubNext; SubSend; WorkerRecv 0; WorkerRecv 1;
   WorkerCall 1; WorkerSend 1; CollNext; CollLookup;
   WorkerCall 0; WorkerSend 0; CollNext; CollLookup; CollEmit;
   CollLookup; CollEmit; CollLookup; Consume; Consume].

Definition two_workers : Options := mkOptions 2 0 0 false 0.

(** One worker, queues of one element; [K] is [EarlyStopN]. *)
Definition one_worker (K : Z) (panicAsError : bool) : Options :=
  mkOptions 1 1 K panicAsError 0.

(** The options of the repository's early-stop test. *)
Definition early_stop_test : Options := mkOptions 2 0 2 false 0.

(** One item as far as [resultChan]. *)
Definition compute (w : nat) : list Label :=
  [SubNext; SubSend; WorkerRecv w; WorkerCall w; WorkerSend w].

(** Early stop at the second of three items, the first of which fails;
    then the rest of the pipeline runs until nothing can move. *)
Definition stop_at_first_success : list Label :=
  pass 0 ++ compute 0 ++ [CollNext; CollLookup; CollEmit; Consume] ++
  compute 0 ++ [SubNext; WorkerRecv 0; WaitClose].

(** The early-stop test: five items, stop after two successes; worker 0
    ends up holding the fifth result in front of a full [resultChan]. *)
Definition stop_after_two : list Label :=
  pass 0 ++ compute 0 ++ [CollNext; CollLookup; CollEmit; Consume] ++
  compute 0 ++ compute 0 ++
  [SubNext; SubSend; WorkerRecv 0; WorkerCall 0; SubNext; WorkerRecv 1].

(** Two items; the caller reads nothing, so the second send on [output]
    (capacity 1) blocks; then [ctx] is cancelled. *)
Definition cancel_blocked_send : list Label :=
  compute 0 ++ [CollNext; CollLookup; CollEmit; CollLookup] ++
  compute 0 ++ [CollNext; CollLookup; Cancel].

(** [make] on linux/amd64, where the runtime allocates at most [2^48]
    bytes and the header of a channel takes 96, for items and values of type
    [int]: a [Result[int]] takes 24 bytes, an [indexedTask[int]] 16 and an
    [indexedResult[int]] 32. *)
Definition limits : Limits :=
  mkLimits ((2 ^ 48 - 96) / 24) ((2 ^ 48 - 96) / 16) ((2 ^ 48 - 96) / 32).

(** The pipeline that [MapOrdered] launches on [items], with [input] closed
    after them and [ctx] live, run along [ls]. *)
Definition after (fn : TaskContext → Z → outcome) (opt : Options)
    (items : list Z) (ls : list Label) : @State Z Z string string :=
  state_after 0 fn (normalize opt) ls (started false items true (normalize opt)).

End Examples.

(** * Further definitions *)

Section Occupancy.

Context {T R E Any : Type}.

Local Abbreviation State := (@State T R E Any).

(** The worker is inside a call of the transform. *)
Definition calling (pc : @WorkerPc T R E Any) : bool :=
  match pc with WCall _ => true | _ => false end.

Definition holds_index (i : Z) (pc : @WorkerPc T R E Any) : bool :=
  match pc with
  | WCall t => task_index t =? i
  | WSend r => res_index r =? i
  | _ => false
  end.

Definition count {A : Type} (p : A → bool) (l : list A) : nat :=
  length (List.filter p l).

(** In how many places of the pipeline the index [i] is: as a task in
    [taskChan], in the hands of a worker, as a result in [resultChan], in
    the reorder buffer, in the hands of the collector, or sent. *)
Definition occurrences (s : State) (i : Z) : nat :=
  (count (λ t, Z.eqb (task_index t) i) (chan_buf (taskChan s))
   + count (holds_index i) (workers s)
   + count (λ r, Z.eqb (res_index r) i) (chan_buf (resultChan s))
   + (if buffer s !! i is Some _ then 1 else 0)
   + (if coll s is CSelect _ then (if Z.eqb (nextIndex s) i then 1 else 0) else 0)
   + count (λ r, Z.eqb (res_index r) i) (sent s))%nat.

(** Worker 0 is in the transform on the first item, [k] later results wait
    in the reorder buffer [b], and the rest of the pipeline is idle. *)
Definition piled (opt : Options) (v : T) (closes : bool)
    (rest : list (@WorkerPc T R E Any)) (k : nat) (inp : list T)
    (b : gmap Z (@Result R E Any)) : State :=
  mkState false inp closes []
    SubRange (Z.of_nat k + 1) (empty_chan (MaxInFlight opt))
    (WCall (mkTask 0 v) :: WSelect :: rest) true (empty_chan (MaxInFlight opt))
    CRange b 0 0 (empty_chan (MaxInFlight opt))
    [] None.

(** The elements of [l] are [f], [f + 1], [f + 2], ... in this order. *)
Fixpoint consecutive (f : Z) (l : list Z) : Prop :=
  match l with
  | [] => True
  | x :: l' => x = f ∧ consecutive (f + 1) l'
  end.

Definition worker_index (pc : @WorkerPc T R E Any) : list Z :=
  match pc with
  | WCall t => [task_index t]
  | WSend r => [res_index r]
  | _ => []
  end.

(** The least index the collector has not been handed yet. *)
Definition front (s : State) : Z :=
  nextIndex s + (if coll s is CSelect _ then 1 else 0)
  + (if buffer s !! nextIndex s is Some _ then 1 else 0).

(** The indices on their way to the collector, and behind them those on
    their way to the workers. *)
Definition computed (s : State) : list Z :=
  map res_index (chan_buf (resultChan s)) ++ flat_map worker_index (workers s).

Definition queued (s : State) : list Z :=
  map task_index (chan_buf (taskChan s)).

(** With a single worker everything moves in the order of the indices. *)
Record in_order (s : State) : Prop := {
  io_buffer : ∀ k, is_Some (buffer s !! k) → k = nextIndex s ∧ coll s = CLoop;
  io_computed : is_CDone (coll s) = false → consecutive (front s) (computed s);
  io_queued : is_CDone (coll s) = false →
    Forall (λ pc, pc ≠ WDone) (workers s) →
    consecutive (front s) (computed s ++ queued s) ∧
    front s + Z.of_nat (length (computed s ++ queued s)) = index s
}.

End Occupancy.

(** ** The reference: the transform applied by hand *)

Section Reference.

Context {T R E Any : Type}.
Variable zeroR : R.
Variable fn : TaskContext → T → @Outcome R E Any.

Local Abbreviation Result := (@Result R E Any).

(** The [Result] that stands for one outcome of the transform: the value
    and the error it returned; for a panic, with [recovers] set, the zero
    value and the [*PanicError] that wraps the panic value.  Without
    [recovers] a panic gives no result. *)
Definition outcome_result (recovers : bool) (o : @Outcome R E Any) : option Result :=
  match o with
  | Returns res err => Some (mkResult res err)
  | Panics p =>
      if recovers
      then Some (mkResult zeroR (Some (ErrPanic (mkPanicError p))))
      else None
  end.

(** The transform applied synchronously to each item in arrival order, by
    a plain loop with no [recover], under the context [ctx]. *)
Definition synchronous (ctx : TaskContext) (items : list T) : option (list Result) :=
  mapM (λ v, outcome_result false (fn ctx v)) items.

(** One result per item, in arrival order, as [opt] asks for them: under
    the context of [TaskTimeout], with panics turned into errors when
    [PanicAsError] is set. *)
Definition results_of (opt : Options) (items : list T) : option (list Result) :=
  mapM (λ v, outcome_result (PanicAsError opt) (fn (taskCtx opt) v)) items.

(** The results up to the [K]-th success, this one included: the failures
    before it are kept and do not count. *)
Fixpoint through_success (K : nat) (rs : list Result) : list Result :=
  match rs, K with
  | r :: rest, S K' =>
      r :: through_success (if is_success r then K' else K) rest
  | _, _ => []
  end.

End Reference.

Module MoreExamples.

Import Examples.

(** The pipeline that [MapOrdered] launches, with [ctx] cancelled or not and
    [input] closed after the items or left open, run along [ls]. *)
Definition after_with (fn : TaskContext → Z → outcome) (cancelled closes : bool)
    (opt : Options) (items : list Z) (ls : list Label) : @State Z Z string string :=
  state_after 0 fn (normalize opt) ls (started cancelled items closes (normalize opt)).

(** [ctx] is cancelled while [input] is open and silent: the worker, the
    goroutine at [wg.Wait()] and the collector return. *)
Definition cancel_idle : list Label :=
  [Cancel; WorkerCtxDone 0; WaitClose; CollNext].

(** A worker takes a task and calls the transform. *)
Definition call_first : list Label :=
  [SubNext; SubSend; WorkerRecv 0; WorkerCall 0].

(** Worker 0 takes the first item and stays in the transform. *)
Definition hold_first : list Label := [SubNext; SubSend; WorkerRecv 0].

(** Worker 1 computes the next item; the collector stores the result and
    goes back to [resultChan], the first result still missing. *)
Definition overtake : list Label :=
  [SubNext; SubSend; WorkerRecv 1; WorkerCall 1; WorkerSend 1;
   CollNext; CollLookup].

(** [n] results pile up behind the first one. *)
Definition pile_up (n : nat) : list Label :=
  hold_first ++ concat (replicate n overtake).

End MoreExamples.

(** * Proofs *)

Lemma int_incr_small (x : Z) : 0 ≤ x < int_max → int_incr x = x + 1.
Proof.
  unfold int_incr, wrap_int, int_max, int_min. intros Hx.
  rewrite Z.mod_small by lia. lia.
Qed.

Section ChanFacts.

Context {A : Type}.
Implicit Types (c : chan A) (x : A).

Lemma chan_send_ok c x c' :
  chan_send c x = SendOk c' →
  chan_closed c = false ∧ Z.of_nat (length (chan_buf c)) < chan_cap c ∧
  c' = Chan (chan_buf c ++ [x]) (chan_cap c) false.
Proof.
  unfold chan_send, chan_has_room. destruct (chan_closed c); [done|].
  destruct (Z.ltb_spec (Z.of_nat (length (chan_buf c))) (chan_cap c)); [|done].
  intros [= <-]. auto.
Qed.

Lemma chan_send_panic c x : chan_send c x = SendPanic → chan_closed c = true.
Proof.
  unfold chan_send. destruct (chan_closed c); [done|]. by destruct (chan_has_room c).
Qed.

Lemma chan_send_blocked c x :
  chan_send c x = SendBlocked →
  chan_closed c = false ∧ chan_cap c ≤ Z.of_nat (length (chan_buf c)).
Proof.
  unfold chan_send, chan_has_room. destruct (chan_closed c); [done|].
  destruct (Z.ltb_spec (Z.of_nat (length (chan_buf c))) (chan_cap c)); [done|auto].
Qed.

Lemma chan_recv_ok c x c' :
  chan_recv c = RecvOk x c' →
  chan_buf c = x :: chan_buf c' ∧ chan_cap c' = chan_cap c ∧
  chan_closed c' = chan_closed c.
Proof.
  unfold chan_recv. destruct (chan_buf c) eqn:Hb.
  - by destruct (chan_closed c).
  - intros [= <- <-]. auto.
Qed.

Lemma chan_recv_closed c :
  chan_recv c = RecvClosed → chan_buf c = [] ∧ chan_closed c = true.
Proof.
  unfold chan_recv. destruct (chan_buf c); [|done]. by destruct (chan_closed c).
Qed.

Lemma chan_recv_blocked c :
  chan_recv c = RecvBlocked → chan_buf c = [] ∧ chan_closed c = false.
Proof.
  unfold chan_recv. destruct (chan_buf c); [|done]. by destruct (chan_closed c).
Qed.

Lemma chan_close_some c c' :
  chan_close c = Some c' →
  chan_closed c = false ∧ c' = Chan (chan_buf c) (chan_cap c) true.
Proof. unfold chan_close. destruct (chan_closed c); [done|]. intros [= <-]. auto. Qed.

Lemma chan_close_none c : chan_close c = None → chan_closed c = true.
Proof. unfold chan_close. by destruct (chan_closed c). Qed.

End ChanFacts.

Section Proofs.

Context {T R E Any : Type}.
Variable zeroR : R.
Variable fn : TaskContext → T → @Outcome R E Any.
Variable items : list T.
Variable opt : Options.

Hypothesis items_fit : Z.of_nat (length items) ≤ int_max.
Hypothesis pool_size : 1 ≤ Workers opt ≤ MaxInFlight opt.

Local Abbreviation State := (@State T R E Any).
Local Abbreviation safe := (safe zeroR fn items opt).
Local Abbreviation res_ok := (res_ok zeroR fn items opt).
Local Abbreviation task_ok := (task_ok items).
Local Abbreviation worker_ok := (worker_ok zeroR fn items opt).

Lemma task_ok_mono (b b' : Z) t : b ≤ b' → task_ok b t → task_ok b' t.
Proof. unfold task_ok. intros ? [? ?]. split; [lia|done]. Qed.

Lemma res_ok_mono (b b' : Z) r : b ≤ b' → res_ok b r → res_ok b' r.
Proof. unfold res_ok. intros ? [? ?]. split; [lia|done]. Qed.

Lemma worker_ok_mono (b b' : Z) pc : b ≤ b' → worker_ok b pc → worker_ok b' pc.
Proof.
  destruct pc; simpl; eauto using task_ok_mono, res_ok_mono.
Qed.

Lemma drop_cons_length (n : nat) (l : list T) x rest :
  drop n l = x :: rest → (n < length l)%nat ∧ drop (S n) l = rest.
Proof.
  intros Hd. split.
  - apply (f_equal length) in Hd. rewrite length_drop in Hd. simpl in Hd. lia.
  - replace (S n) with (n + 1)%nat by lia. rewrite <- drop_drop, Hd. done.
Qed.

Lemma drop_lookup_head (n : nat) (l : list T) x rest :
  drop n l = x :: rest → l !! n = Some x.
Proof.
  intros Hd. rewrite <- (Nat.add_0_r n), <- lookup_drop, Hd. done.
Qed.

Ltac safe_fields Hs := destruct Hs; constructor; simpl in *; auto; try done.

Ltac safe_fields_at Hs Hpc :=
  destruct Hs; rewrite ?Hpc in *; constructor; simpl in *; auto; try done.

Lemma submitter_return_safe (s : State) :
  sub s ≠ SubDone → safe s → safe (submitter_return s).
Proof.
  intros Hsub Hs. unfold submitter_return.
  destruct (chan_close (taskChan s)) as [tc|] eqn:Hcl.
  - apply chan_close_some in Hcl as [Hcl ->]. safe_fields Hs.
  - apply chan_close_none in Hcl. destruct Hs.
    rewrite Hcl in safe_taskChan_closed0. by destruct (sub s).
Qed.

Lemma submitter_safe l (s s' : State) :
  safe s → submitter l s = Some s' → safe s'.
Proof.
  intros Hs Hstep. unfold submitter in Hstep.
  destruct l; try (by destruct (sub s)).
  - (* SubNext *)
    destruct (sub s) eqn:Hsub; try done.
    destruct (input s) as [|val rest] eqn:Hin.
    + destruct (inputCloses s); [|done]. injection Hstep as <-.
      apply submitter_return_safe; [congruence|done].
    + injection Hstep as <-.
      destruct Hs. constructor; simpl; rewrite ?Hsub, ?Hin in *; simpl in *; auto.
  - (* SubSend *)
    destruct (sub s) eqn:Hsub; try done.
    destruct (chan_send _ _) as [tc| |] eqn:Hsend; [|done|].
    + injection Hstep as <-. apply chan_send_ok in Hsend as (Hcl & Hroom & ->).
      destruct Hs. rewrite Hsub in *. simpl in *.
      destruct (drop_cons_length _ _ _ _ (safe_input0 eq_refl)) as [Hlt Hdrop].
      assert (Hinc : int_incr (index s) = index s + 1).
      { apply int_incr_small. lia. }
      assert (Hle : index s ≤ index s + 1) by lia.
      constructor; simpl; rewrite ?Hsub, ?Hinc; simpl; auto.
      * lia.
      * intros _. by replace (Z.to_nat (index s + 1)) with (S (Z.to_nat (index s))) by lia.
      * apply Forall_app. split.
        -- eapply Forall_impl; [done|]. eauto using task_ok_mono.
        -- apply Forall_singleton. split; simpl; [lia|].
           eapply drop_lookup_head. apply safe_input0. done.
      * eapply Forall_impl; [done|]. eauto using worker_ok_mono.
      * eapply Forall_impl; [done|]. eauto using res_ok_mono.
      * eauto using res_ok_mono.
      * intros item Hit. destruct (safe_item0 item Hit). eauto using res_ok_mono.
      * intros n r Hn. destruct (safe_sent0 n r Hn). eauto using res_ok_mono.
      * rewrite length_app. simpl. lia.
    + apply chan_send_panic in Hsend. destruct Hs.
      rewrite Hsend, Hsub in safe_taskChan_closed0. done.
  - (* SubCtxDone *)
    destruct (sub s) eqn:Hsub; try done.
    destruct (ctxDone s); [|done]. injection Hstep as <-.
    apply submitter_return_safe; [congruence|done].
Qed.

Lemma not_waited (s : State) w pc :
  safe s → workers s !! w = Some pc → pc ≠ WDone → waiting s = true.
Proof.
  intros Hs Hw Hpc. destruct (waiting s) eqn:Hwait; [done|].
  destruct Hpc. eapply (Forall_lookup_1 _ _ _ _ (safe_waited _ _ _ _ _ Hs Hwait) Hw).
Qed.

(** Routine side conditions of the preservation proofs. *)
Ltac safe_side :=
  try rewrite length_insert;
  try (intros ? ?; congruence);
  try congruence;
  try (repeat split; lia).

Lemma worker_safe l (s s' : State) :
  crashed s = None → safe s → worker zeroR fn opt l s = Some s' → safe s'.
Proof.
  intros Hc Hs Hstep. unfold worker in Hstep.
  destruct l; try done; destruct (workers s !! w) as [pc|] eqn:Hw; try done;
    destruct pc; try done.
  - (* WorkerRecv *)
    pose proof (not_waited s w _ Hs Hw ltac:(done)) as Hwait.
    destruct (chan_recv _) as [task tc| |] eqn:Hrecv; [| |done]; injection Hstep as <-.
    + apply chan_recv_ok in Hrecv as (Hbuf & Hcap & Hclosed).
      safe_fields Hs; safe_side.
      * rewrite Hbuf in safe_tasks0. by apply Forall_cons in safe_tasks0 as [_ ?].
      * apply Forall_insert; [done|]. rewrite Hbuf in safe_tasks0.
        by apply Forall_cons in safe_tasks0 as [? _].
      * rewrite Hbuf in safe_lens0. simpl in *. lia.
    + safe_fields Hs; safe_side. by apply Forall_insert.
  - (* WorkerCall *)
    pose proof (not_waited s w _ Hs Hw ltac:(done)) as Hwait.
    pose proof (Forall_lookup_1 _ _ _ _ (safe_workers _ _ _ _ _ Hs) Hw) as Htask.
    simpl in Htask. destruct Htask as [Hrange Hitem].
    destruct (invoke _ _ _ _) as [r|r] eqn:Hinv; injection Hstep as <-.
    + safe_fields Hs; safe_side.
      apply Forall_insert; [done|]. split; simpl; [done|]. eauto.
    + safe_fields Hs. intros c [= <-]. unfold invoke in Hinv.
      destruct (fn _ _) as [|r'] eqn:Hfn; [done|].
      destruct (PanicAsError opt); [done|]. injection Hinv as ->. eauto 10.
  - (* WorkerSend *)
    pose proof (not_waited s w _ Hs Hw ltac:(done)) as Hwait.
    pose proof (Forall_lookup_1 _ _ _ _ (safe_workers _ _ _ _ _ Hs) Hw) as Hres.
    simpl in Hres.
    destruct (chan_send _ _) as [rc| |] eqn:Hsend; [|done|]; injection Hstep as <-.
    + apply chan_send_ok in Hsend as (Hcl & Hroom & ->).
      safe_fields Hs; safe_side.
      * by apply Forall_insert.
      * apply Forall_app. split; [done|]. by apply Forall_singleton.
      * rewrite length_app. simpl. lia.
    + apply chan_send_panic in Hsend. destruct Hs.
      rewrite Hsend, Hwait in safe_resultChan_closed0. done.
  - (* WorkerCtxDone at line 128 *)
    pose proof (not_waited s w _ Hs Hw ltac:(done)) as Hwait.
    destruct (ctxDone s); [|done]. injection Hstep as <-.
    safe_fields Hs; safe_side. by apply Forall_insert.
  - (* WorkerCtxDone at line 163 *)
    pose proof (not_waited s w _ Hs Hw ltac:(done)) as Hwait.
    destruct (ctxDone s); [|done]. injection Hstep as <-.
    safe_fields Hs; safe_side. by apply Forall_insert.
Qed.

Lemma waiter_safe l (s s' : State) :
  crashed s = None → safe s → waiter l s = Some s' → safe s'.
Proof.
  intros Hc Hs Hstep. unfold waiter in Hstep. destruct l; try done.
  destruct (waiting s) eqn:Hwait; [|done].
  destruct (forallb is_WDone (workers s)) eqn:Hall; [|done]. simpl in Hstep.
  destruct (chan_close _) as [rc|] eqn:Hcl; injection Hstep as <-.
  - apply chan_close_some in Hcl as [Hcl ->]. safe_fields Hs; safe_side.
    intros _. apply Is_true_true, forallb_True in Hall.
    eapply Forall_impl; [done|]. intros []; simpl; done.
  - apply chan_close_none in Hcl. destruct Hs.
    rewrite Hcl, Hwait in safe_resultChan_closed0. done.
Qed.

Lemma caller_safe l (s s' : State) :
  crashed s = None → safe s → caller l s = Some s' → safe s'.
Proof.
  intros Hc Hs Hstep. unfold caller in Hstep. destruct l; try done.
  - destruct (ctxDone s); [done|]. injection Hstep as <-. safe_fields Hs.
  - destruct (chan_recv _) as [r out| |] eqn:Hrecv; try done. injection Hstep as <-.
    apply chan_recv_ok in Hrecv as (Hbuf & Hcap & Hclosed).
    safe_fields Hs; safe_side.
    + unfold emitted in *. simpl. rewrite safe_output0, Hbuf, <- app_assoc. done.
    + rewrite Hbuf in safe_lens0. simpl in *. lia.
Qed.

Lemma successes_app (rs : list (@Result R E Any)) r :
  successes (rs ++ [r]) = successes rs + (if is_success r then 1 else 0).
Proof.
  unfold successes. rewrite List.filter_app, length_app. simpl.
  destruct (is_success r); simpl; lia.
Qed.

Lemma successes_le (rs : list (@Result R E Any)) :
  0 ≤ successes rs ≤ Z.of_nat (length rs).
Proof.
  unfold successes. pose proof (List.filter_length_le is_success rs). lia.
Qed.

Lemma collector_return_safe why (s : State) :
  safe s → is_CDone (coll s) = false →
  why ≠ ExitEarlyStop → (why = ExitCancelled → ctxDone s = true) →
  safe (collector_return why (nextIndex s) (successCount s) (output s) (sent s) s).
Proof.
  intros Hs Hpc Hwhy Hcan. unfold collector_return.
  destruct (chan_close _) as [out|] eqn:Hcl.
  - apply chan_close_some in Hcl as [Hcl ->].
    safe_fields Hs; safe_side.
    + rewrite safe_next0. destruct (coll s) as [| | |[]], why; done.
    + intros HK. specialize (safe_quota0 HK).
      destruct (coll s) as [| | |[]], why; done.
    + intros [= ->]. auto.
  - apply chan_close_none in Hcl. destruct Hs. congruence.
Qed.

Lemma collector_safe l (s s' : State) :
  crashed s = None → safe s → collector opt l s = Some s' → safe s'.
Proof.
  intros Hc Hs Hstep. unfold collector in Hstep.
  destruct l; try (by destruct (coll s)).
  - (* CollNext *)
    destruct (coll s) eqn:Hpc; try done.
    destruct (chan_recv _) as [r rc| |] eqn:Hrecv; [| |done]; injection Hstep as <-.
    + apply chan_recv_ok in Hrecv as (Hbuf & Hcap & Hclosed).
      safe_fields_at Hs Hpc; safe_side.
      * rewrite Hbuf in safe_results0. by apply Forall_cons in safe_results0 as [_ ?].
      * intros k r0. rewrite lookup_insert. case_decide as Hk.
        -- intros [= <-]. subst k. rewrite Hbuf in safe_results0.
           apply Forall_cons in safe_results0 as [? _]. by destruct r.
        -- auto.
      * rewrite Hbuf in safe_lens0. simpl in *. lia.
    + apply collector_return_safe; try done. by rewrite Hpc.
  - (* CollLookup *)
    destruct (coll s) eqn:Hpc; try done.
    destruct (buffer s !! nextIndex s) as [item|] eqn:Hbuf; injection Hstep as <-.
    + safe_fields_at Hs Hpc; safe_side.
      * intros k r [_ Hk]%lookup_delete_Some. auto.
      * intros item0 [= <-]. split; [auto|]. apply lookup_delete_eq.
    + safe_fields_at Hs Hpc; safe_side.
  - (* CollEmit *)
    destruct (coll s) eqn:Hpc; try done.
    destruct (chan_send _ _) as [out| |] eqn:Hsend; [|done|].
    + apply chan_send_ok in Hsend as (Hcl & Hroom & ->).
      destruct (safe_item _ _ _ _ _ Hs _ Hpc) as [Hitem _].
      pose proof (safe_next _ _ _ _ _ Hs) as Hlen. rewrite Hpc in Hlen.
      pose proof (safe_count _ _ _ _ _ Hs) as Hsucc.
      pose proof (successes_le (emitted s)) as Hle.
      unfold emitted in Hle, Hsucc. rewrite length_map in Hle.
      assert (Hnext : int_incr (nextIndex s) = nextIndex s + 1).
      { destruct Hitem as [? _]. simpl in *. destruct Hs.
        apply int_incr_small. lia. }
      assert (Hcount : int_incr (successCount s) = successCount s + 1).
      { destruct Hitem as [? _]. simpl in *. destruct Hs.
        apply int_incr_small. lia. }
      rewrite Hnext, Hcount in Hstep.
      set (h := sent s ++ [mkIndexed (nextIndex s) item]) in *.
      assert (Hsent' : ∀ n r, h !! n = Some r →
                res_index r = Z.of_nat n ∧ res_ok (index s) r).
      { intros n r. unfold h. rewrite lookup_app.
        destruct (sent s !! n) eqn:Hn.
        - intros [= <-]. by apply Hs.
        - destruct (n - length (sent s))%nat as [|k] eqn:Hk; [|done].
          intros [= <-]. simpl. split; [|done].
          apply lookup_ge_None in Hn. lia. }
      assert (Hlen' : Z.of_nat (length h) = nextIndex s + 1).
      { unfold h. rewrite length_app. simpl. lia. }
      assert (Hem' : map res_res h = received s ++ chan_buf (output s) ++ [item]).
      { unfold h. rewrite map_app. simpl. rewrite app_assoc.
        f_equal. apply Hs. }
      assert (Hsucc' : successes (map res_res h) =
                successCount s + (if is_nil (Err item) then 1 else 0)).
      { unfold h. rewrite map_app. simpl. rewrite successes_app, Hsucc. done. }
      assert (Hroom' : Z.of_nat (length (chan_buf (output s) ++ [item]))
                ≤ MaxInFlight opt).
      { rewrite length_app. simpl. destruct Hs as [].
        destruct safe_caps0 as (_ & _ & Hcap). lia. }
      clearbody h.
      destruct (is_nil (Err item)) eqn:Hnil.
      * destruct (_ && _) eqn:Hstop; injection Hstep as <-.
        -- apply andb_true_iff in Hstop as [HK%Z.ltb_lt Hge%Z.leb_le].
           unfold collector_return. simpl.
           safe_fields_at Hs Hpc; unfold emitted; simpl; safe_side.
           intros _. split; [specialize (safe_quota0 HK); lia|].
           exists (received s ++ chan_buf (output s)), item.
           rewrite Hem', app_assoc. done.
        -- safe_fields_at Hs Hpc; unfold emitted; simpl; safe_side.
      * injection Hstep as <-.
        safe_fields_at Hs Hpc; unfold emitted; simpl; safe_side.
    + apply chan_send_panic in Hsend. destruct Hs. rewrite Hpc in *.
      simpl in *. congruence.
  - (* CollCtxDone *)
    destruct (coll s) eqn:Hpc; try done.
    destruct (ctxDone s) eqn:Hctx; [|done]. injection Hstep as <-.
    apply collector_return_safe; try done. by rewrite Hpc.
Qed.

Lemma step_safe l (s s' : State) :
  safe s → step zeroR fn opt l s = Some s' → safe s'.
Proof.
  intros Hs Hstep. unfold step in Hstep.
  destruct (crashed s) eqn:Hc; [done|].
  destruct l;
    eauto using caller_safe, submitter_safe, worker_safe, waiter_safe, collector_safe.
Qed.

Lemma run_safe ls (s s' : State) :
  safe s → run zeroR fn opt ls s = Some s' → safe s'.
Proof.
  revert s. induction ls as [|l ls IH]; intros s Hs Hrun; simpl in Hrun.
  - by injection Hrun as <-.
  - destruct (step zeroR fn opt l s) as [s1|] eqn:Hstep; [|done].
    eauto using step_safe.
Qed.

Lemma start_safe cancelled closes : safe (started cancelled items closes opt).
Proof.
  constructor; simpl; auto; try done; try lia.
  - apply Forall_forall. intros pc [-> _]%elem_of_replicate. done.
  - by rewrite length_replicate.
Qed.

(** ** Nothing is lost before cancellation *)

Local Abbreviation lossless := (lossless (R:=R) (E:=E) (Any:=Any) items).

Ltac loc_cases H :=
  destruct H as [(?n & ?t & ?Hn & ?Hi)|[(?w' & ?pc' & ?Hw' & ?Hi)|
    [(?n & ?r & ?Hn & ?Hi)|[?Hb|[(?it & ?Hit & ?Hi)|?Hlt]]]]].

Ltac loc_solve :=
  unfold located; simpl;
  first [ solve [left; eauto]
        | solve [right; left; eauto]
        | solve [right; right; left; eauto]
        | solve [right; right; right; left; eauto]
        | solve [right; right; right; right; left; eauto]
        | solve [right; right; right; right; right; eauto; lia] ].

Lemma located_frame (s s' : State) i :
  chan_buf (taskChan s') = chan_buf (taskChan s) →
  workers s' = workers s →
  chan_buf (resultChan s') = chan_buf (resultChan s) →
  buffer s' = buffer s → coll s' = coll s → nextIndex s' = nextIndex s →
  sent s' = sent s →
  located s i → located s' i.
Proof.
  unfold located. intros -> -> -> -> -> -> ->. done.
Qed.

Ltac ll_fields Hl :=
  destruct Hl as [Hloc Habs Hdr Hwd Hsd]; constructor; simpl in *.

Lemma submitter_lossless l (s s' : State) :
  safe s → lossless s → submitter l s = Some s' → lossless s'.
Proof.
  intros Hs Hl Hstep. unfold submitter in Hstep.
  assert (Hret : input s = [] ∨ ctxDone s = true → sub s ≠ SubDone →
            held (sub s) = [] ∨ ctxDone s = true →
            lossless (submitter_return s)).
  { intros Hin Hsub Hheld. unfold submitter_return.
    destruct (chan_close _) as [tc|] eqn:Hcl.
    - apply chan_close_some in Hcl as [Hcl ->].
      pose proof (safe_input _ _ _ _ _ Hs) as Hdrop.
      pose proof (safe_index _ _ _ _ _ Hs) as Hidx.
      ll_fields Hl; auto.
      + intros Hctx w Hw. destruct (Hwd Hctx w Hw). done.
      + intros Hctx _. rewrite Hctx in *.
        destruct Hin as [Hin|]; [|done]. destruct Hheld as [Hheld|]; [|done].
        rewrite Hin, Hheld in Hdrop.
        assert (Hd : is_SubDone (sub s) = false) by (by destruct (sub s)).
        specialize (Hdrop Hd). apply (f_equal length) in Hdrop.
        rewrite length_drop in Hdrop. simpl in Hdrop. lia.
    - by ll_fields Hl. }
  destruct l; try (by destruct (sub s)).
  - (* SubNext *)
    destruct (sub s) eqn:Hsub; try done.
    destruct (input s) as [|val rest] eqn:Hin.
    + destruct (inputCloses s); [|done]. injection Hstep as <-. apply Hret; auto.
    + injection Hstep as <-. ll_fields Hl; auto; try done.
      intros Hctx w Hw. destruct (Hwd Hctx w Hw). congruence.
  - (* SubSend *)
    destruct (sub s) eqn:Hsub; try done.
    destruct (chan_send _ _) as [tc| |] eqn:Hsend; [|done|]; injection Hstep as <-.
    + apply chan_send_ok in Hsend as (Hcl & Hroom & ->).
      pose proof (safe_input _ _ _ _ _ Hs) as Hdrop. rewrite Hsub in Hdrop.
      destruct (drop_cons_length _ _ _ _ (Hdrop eq_refl)) as [Hlt _].
      pose proof (safe_index _ _ _ _ _ Hs) as Hidx.
      assert (Hinc : int_incr (index s) = index s + 1).
      { apply int_incr_small. lia. }
      ll_fields Hl; auto; try done.
      * intros Hctx i Hi. rewrite Hinc in Hi.
        destruct (decide (i = index s)) as [->|Hne].
        -- left. exists (length (chan_buf (taskChan s))), (mkTask (index s) val).
           simpl. split; [|done]. by apply list_lookup_middle.
        -- assert (Hi' : 0 ≤ i < index s) by lia.
           specialize (Hloc Hctx i Hi'). loc_cases Hloc; try loc_solve.
           left. exists n, t. split; [|done]. simpl. by apply lookup_app_l_Some.
      * intros Hctx w Hw. destruct (Hwd Hctx w Hw). congruence.
    + by ll_fields Hl.
  - (* SubCtxDone *)
    destruct (sub s) eqn:Hsub; try done.
    destruct (ctxDone s) eqn:Hctx; [|done]. injection Hstep as <-.
    apply Hret; auto.
Qed.

Lemma worker_holds_insert (ws : list (@WorkerPc T R E Any)) w old new w' pc' i :
  ws !! w = Some old → ws !! w' = Some pc' → worker_holds pc' i →
  (old = pc' ∧ w' = w) ∨ <[w:=new]> ws !! w' = Some pc'.
Proof.
  intros Hw Hw' Hpc. destruct (decide (w = w')) as [->|Hne].
  - left. split; congruence.
  - right. by rewrite list_lookup_insert_ne.
Qed.

Lemma worker_lossless l (s s' : State) :
  crashed s = None → safe s → lossless s →
  worker zeroR fn opt l s = Some s' → lossless s'.
Proof.
  intros Hc Hs Hl Hstep. unfold worker in Hstep.
  destruct l; try done; destruct (workers s !! w) as [pc|] eqn:Hw; try done;
    destruct pc; try done.
  - (* WorkerRecv *)
    pose proof (not_waited s w _ Hs Hw ltac:(done)) as Hwait.
    pose proof (lookup_lt_Some _ _ _ Hw) as Hlen.
    destruct (chan_recv _) as [task tc| |] eqn:Hrecv; [| |done]; injection Hstep as <-.
    + apply chan_recv_ok in Hrecv as (Hbuf & Hcap & Hclosed).
      ll_fields Hl; [|exact Habs|exact Hdr| |exact Hsd].
      * intros Hctx i Hi. specialize (Hloc Hctx i Hi).
        loc_cases Hloc; try loc_solve.
        -- rewrite Hbuf in Hn. destruct n as [|n]; simpl in Hn.
           ++ injection Hn as <-. right; left. exists w, (WCall task).
              split; [|done]. by apply list_lookup_insert_eq.
           ++ loc_solve.
        -- destruct (worker_holds_insert _ w _ (WCall task) _ _ _ Hw Hw' Hi0)
             as [[<- _]|Hother]; [done|loc_solve].
      * intros Hctx w0 Hw0. destruct (decide (w = w0)) as [->|Hne].
        -- rewrite list_lookup_insert_eq in Hw0 by done. done.
        -- rewrite list_lookup_insert_ne in Hw0 by done.
           destruct (Hwd Hctx w0 Hw0) as [_ Hnil]. congruence.
    + apply chan_recv_closed in Hrecv as [Hbuf Hclosed].
      ll_fields Hl; [|exact Habs|exact Hdr| |exact Hsd].
      * intros Hctx i Hi. specialize (Hloc Hctx i Hi).
        loc_cases Hloc; try loc_solve.
        destruct (worker_holds_insert _ w _ WDone _ _ _ Hw Hw' Hi0)
          as [[<- _]|Hother]; [done|loc_solve].
      * intros Hctx w0 Hw0. split; [|done].
        rewrite (safe_taskChan_closed _ _ _ _ _ Hs) in Hclosed.
        by destruct (sub s).
  - (* WorkerCall *)
    pose proof (lookup_lt_Some _ _ _ Hw) as Hlen.
    destruct (invoke _ _ _ _) as [r|r] eqn:Hinv; injection Hstep as <-.
    + ll_fields Hl; [|exact Habs|exact Hdr| |exact Hsd].
      * intros Hctx i Hi. specialize (Hloc Hctx i Hi).
        loc_cases Hloc; try loc_solve.
        destruct (worker_holds_insert _ w _ (WSend (mkIndexed (task_index task) r))
                    _ _ _ Hw Hw' Hi0) as [[<- _]|Hother]; [|loc_solve].
        right; left. eexists w, _. split; [by apply list_lookup_insert_eq|done].
      * intros Hctx w0 Hw0. destruct (decide (w = w0)) as [->|Hne].
        -- rewrite list_lookup_insert_eq in Hw0 by done. done.
        -- rewrite list_lookup_insert_ne in Hw0 by done. eauto.
    + by ll_fields Hl.
  - (* WorkerSend *)
    pose proof (not_waited s w _ Hs Hw ltac:(done)) as Hwait.
    pose proof (lookup_lt_Some _ _ _ Hw) as Hlen.
    destruct (chan_send _ _) as [rc| |] eqn:Hsend; [|done|]; injection Hstep as <-.
    + apply chan_send_ok in Hsend as (Hcl & Hroom & ->).
      ll_fields Hl; [|exact Habs| | |exact Hsd].
      * intros Hctx i Hi. specialize (Hloc Hctx i Hi).
        loc_cases Hloc; try loc_solve.
        -- destruct (worker_holds_insert _ w _ WSelect _ _ _ Hw Hw' Hi0)
             as [[<- _]|Hother]; [|loc_solve].
           right; right; left. exists (length (chan_buf (resultChan s))), r.
           split; [|done]. by apply list_lookup_middle.
        -- right; right; left. exists n, r0. split; [|done].
           by apply lookup_app_l_Some.
      * intros [Hbad _]%Hdr. congruence.
      * intros Hctx w0 Hw0. destruct (decide (w = w0)) as [->|Hne].
        -- rewrite list_lookup_insert_eq in Hw0 by done. done.
        -- rewrite list_lookup_insert_ne in Hw0 by done. eauto.
    + by ll_fields Hl.
  - (* WorkerCtxDone at line 128 *)
    destruct (ctxDone s) eqn:Hctx; [|done]. injection Hstep as <-.
    ll_fields Hl; auto; congruence.
  - (* WorkerCtxDone at line 163 *)
    destruct (ctxDone s) eqn:Hctx; [|done]. injection Hstep as <-.
    ll_fields Hl; auto; congruence.
Qed.

Lemma waiter_lossless l (s s' : State) :
  lossless s → waiter l s = Some s' → lossless s'.
Proof.
  intros Hl Hstep. unfold waiter in Hstep. destruct l; try done.
  destruct (waiting s && forallb is_WDone (workers s)); [|done].
  destruct (chan_close _) as [rc|] eqn:Hcl; injection Hstep as <-.
  - apply chan_close_some in Hcl as [Hcl ->].
    ll_fields Hl; [exact Hloc|exact Habs| |exact Hwd|exact Hsd].
    intros [_ ?]%Hdr. done.
  - by ll_fields Hl.
Qed.

Lemma caller_lossless l (s s' : State) :
  lossless s → caller l s = Some s' → lossless s'.
Proof.
  intros Hl Hstep. unfold caller in Hstep. destruct l; try done.
  - destruct (ctxDone s); [done|]. injection Hstep as <-. by ll_fields Hl.
  - destruct (chan_recv _) as [r out| |]; try done. injection Hstep as <-.
    by ll_fields Hl.
Qed.

Lemma collector_lossless l (s s' : State) :
  safe s → lossless s → collector opt l s = Some s' → lossless s'.
Proof.
  intros Hs Hl Hstep. unfold collector in Hstep.
  destruct l; try (by destruct (coll s)).
  - (* CollNext *)
    destruct (coll s) eqn:Hpc; try done.
    destruct (chan_recv _) as [r rc| |] eqn:Hrecv; [| |done]; injection Hstep as <-.
    + apply chan_recv_ok in Hrecv as (Hbuf & Hcap & Hclosed).
      ll_fields Hl; [| | |exact Hwd|exact Hsd].
      * intros Hctx i Hi. specialize (Hloc Hctx i Hi).
        loc_cases Hloc; try loc_solve.
        -- rewrite Hbuf in Hn. destruct n as [|n]; simpl in Hn.
           ++ injection Hn as <-. right; right; right; left. simpl.
              rewrite lookup_insert_is_Some'. auto.
           ++ loc_solve.
        -- right; right; right; left. simpl. rewrite lookup_insert_is_Some'. auto.
        -- congruence.
      * intros [|]; done.
      * done.
    + apply chan_recv_closed in Hrecv as [Hbuf Hclosed].
      unfold collector_return. destruct (chan_close _) as [out|]; [|by ll_fields Hl].
      ll_fields Hl; [| | |exact Hwd|exact Hsd].
      * intros Hctx i Hi. specialize (Hloc Hctx i Hi).
        loc_cases Hloc; try loc_solve. congruence.
      * auto.
      * intros _. split; [|done].
        rewrite (safe_resultChan_closed _ _ _ _ _ Hs) in Hclosed.
        by destruct (waiting s).
  - (* CollLookup *)
    destruct (coll s) eqn:Hpc; try done.
    destruct (buffer s !! nextIndex s) as [item|] eqn:Hbuf; injection Hstep as <-.
    + ll_fields Hl; [| | |exact Hwd|exact Hsd].
      * intros Hctx i Hi. specialize (Hloc Hctx i Hi).
        loc_cases Hloc; try loc_solve; try congruence.
        destruct (decide (i = nextIndex s)) as [->|Hne].
        -- right; right; right; right; left. eauto.
        -- right; right; right; left. simpl. by rewrite lookup_delete_ne.
      * intros [|]; done.
      * done.
    + ll_fields Hl; [| | |exact Hwd|exact Hsd].
      * intros Hctx i Hi. specialize (Hloc Hctx i Hi).
        loc_cases Hloc; try loc_solve. congruence.
      * done.
      * done.
  - (* CollEmit *)
    destruct (coll s) eqn:Hpc; try done.
    destruct (chan_send _ _) as [out| |] eqn:Hsend; [|done|by injection Hstep as <-; ll_fields Hl].
    pose proof (safe_next _ _ _ _ _ Hs) as Hlen. rewrite Hpc in Hlen.
    assert (Hmove : ∀ s1 : State,
      chan_buf (taskChan s1) = chan_buf (taskChan s) → workers s1 = workers s →
      chan_buf (resultChan s1) = chan_buf (resultChan s) → buffer s1 = buffer s →
      sent s1 = sent s ++ [mkIndexed (nextIndex s) item] →
      ∀ i, located s i → located s1 i).
    { intros s1 E1 E2 E3 E4 E5 i Hloc. unfold located.
      rewrite E1, E2, E3, E4, E5, length_app. simpl.
      loc_cases Hloc; try loc_solve; right; right; right; right; right; lia. }
    assert (Hgoal : ∀ pc n c o, pc ≠ CRange → pc ≠ CDone ExitDrained →
      lossless (set_collector (resultChan s) pc (buffer s) n c o
                  (sent s ++ [mkIndexed (nextIndex s) item]) s)).
    { intros pc n c o Hpc1 Hpc2.
      ll_fields Hl; [| | |exact Hwd|exact Hsd].
      - intros Hctx i Hi. apply Hmove; auto.
      - intros [|]; done.
      - done. }
    destruct (is_nil (Err item)); [destruct (_ && _)|]; injection Hstep as <-.
    + unfold collector_return. destruct (chan_close _); [|by ll_fields Hl].
      by apply Hgoal.
    + by apply Hgoal.
    + by apply Hgoal.
  - (* CollCtxDone *)
    destruct (coll s) eqn:Hpc; try done.
    destruct (ctxDone s) eqn:Hctx; [|done]. injection Hstep as <-.
    unfold collector_return. destruct (chan_close _); [|by ll_fields Hl].
    ll_fields Hl; auto; try congruence. intros [|]; done.
Qed.

Lemma step_lossless l (s s' : State) :
  safe s → lossless s → step zeroR fn opt l s = Some s' → lossless s'.
Proof.
  intros Hs Hl Hstep. unfold step in Hstep.
  destruct (crashed s) eqn:Hc; [done|].
  destruct l;
    eauto using caller_lossless, submitter_lossless, worker_lossless,
      waiter_lossless, collector_lossless.
Qed.

Lemma run_lossless ls (s s' : State) :
  safe s → lossless s → run zeroR fn opt ls s = Some s' → lossless s'.
Proof.
  revert s. induction ls as [|l ls IH]; intros s Hs Hl Hrun; simpl in Hrun.
  - by injection Hrun as <-.
  - destruct (step zeroR fn opt l s) as [s1|] eqn:Hstep; [|done].
    eauto using step_safe, step_lossless.
Qed.

Lemma start_lossless cancelled closes : lossless (started cancelled items closes opt).
Proof.
  constructor; simpl; try done.
  - intros _ i Hi. lia.
  - intros _ w [? _]%lookup_replicate. done.
Qed.

(** ** The pipeline only rests once the collector has returned *)

Local Abbreviation quiescent := (quiescent zeroR fn opt).

Ltac stuck Hq L H :=
  pose proof (Hq L ltac:(done)) as H; unfold step in H;
  match goal with Hc : crashed _ = None |- _ => rewrite Hc in H end;
  simpl in H.

Lemma room_when_empty {A} (c : chan A) x :
  chan_buf c = [] → chan_closed c = false → chan_cap c = MaxInFlight opt →
  ∃ c', chan_send c x = SendOk c'.
Proof.
  intros Hbuf Hcl Hcap. unfold chan_send, chan_has_room.
  rewrite Hcl, Hbuf, Hcap. simpl length.
  destruct (Z.ltb_spec (Z.of_nat 0) (MaxInFlight opt)) as [_|Hle]; [eauto|lia].
Qed.

Lemma quiescent_done (s : State) :
  safe s → crashed s = None → quiescent s →
  ctxDone s = true ∨ inputCloses s = true →
  is_CDone (coll s) = true ∧ chan_buf (output s) = [].
Proof.
  intros Hs Hc Hq Hend.
  assert (Hout : chan_buf (output s) = []).
  { stuck Hq (@Consume) H. unfold caller, chan_recv in H.
    by destruct (chan_buf (output s)). }
  split; [|done].
  destruct (coll s) eqn:Hpc; [| | |done]; exfalso.
  - (* the collector waits for a result *)
    stuck Hq (@CollNext) Hnext. unfold collector in Hnext. rewrite Hpc in Hnext.
    destruct (chan_recv (resultChan s)) eqn:Hrecv; try done.
    apply chan_recv_blocked in Hrecv as [Hrbuf Hrcl].
    rewrite (safe_resultChan_closed _ _ _ _ _ Hs) in Hrcl.
    destruct (waiting s) eqn:Hwait; [|done].
    stuck Hq (@WaitClose) Hwc. unfold waiter in Hwc. rewrite Hwait in Hwc.
    destruct (forallb is_WDone (workers s)) eqn:Hall.
    { simpl in Hwc. by destruct (chan_close (resultChan s)). }
    apply not_true_iff_false in Hall. rewrite <- Is_true_true, forallb_True in Hall.
    apply not_Forall_Exists in Hall; [|solve_decision].
    apply Exists_exists in Hall as (pc & [w Hw]%list_elem_of_lookup & Hpcw).
    destruct pc; [| | |by destruct Hpcw].
    + (* a worker waits for a task *)
      destruct (ctxDone s) eqn:Hctx.
      { stuck Hq (WorkerCtxDone w) Hcd. unfold worker in Hcd.
        rewrite Hw, Hctx in Hcd. done. }
      destruct Hend as [|Hcloses]; [done|].
      stuck Hq (WorkerRecv w) Hwr. unfold worker in Hwr. rewrite Hw in Hwr.
      destruct (chan_recv (taskChan s)) eqn:Htrecv; try done.
      apply chan_recv_blocked in Htrecv as [Htbuf Htcl].
      pose proof (safe_taskChan_closed _ _ _ _ _ Hs) as Hsd. rewrite Htcl in Hsd.
      destruct (sub s) eqn:Hsub; [| |done].
      * stuck Hq (@SubNext) Hsn. unfold submitter in Hsn. rewrite Hsub in Hsn.
        destruct (input s); [|done]. by rewrite Hcloses in Hsn.
      * stuck Hq (@SubSend) Hss. unfold submitter in Hss. rewrite Hsub in Hss.
        destruct (room_when_empty (taskChan s) (mkTask (index s) val))
          as [tc Htc]; [done|done|apply Hs|].
        by rewrite Htc in Hss.
    + stuck Hq (WorkerCall w) Hcall. unfold worker in Hcall. rewrite Hw in Hcall.
      by destruct (invoke _ _ _ _).
    + stuck Hq (WorkerSend w) Hsend. unfold worker in Hsend. rewrite Hw in Hsend.
      destruct (room_when_empty (resultChan s) r) as [rc Hrc];
        [done| |apply Hs|].
      * rewrite (safe_resultChan_closed _ _ _ _ _ Hs), Hwait. done.
      * by rewrite Hrc in Hsend.
  - stuck Hq (@CollLookup) Hlk. unfold collector in Hlk. rewrite Hpc in Hlk.
    by destruct (buffer s !! nextIndex s).
  - stuck Hq (@CollEmit) Hem. unfold collector in Hem. rewrite Hpc in Hem.
    destruct (room_when_empty (output s) item) as [out Hsend]; [done| |apply Hs|].
    + rewrite (safe_output_closed _ _ _ _ _ Hs), Hpc. done.
    + rewrite Hsend in Hem. destruct (is_nil (Err item)); [|done].
      by destruct (_ && _).
Qed.

(** ** What has been sent on [output] *)

Lemma sent_indices (s : State) :
  safe s → map res_index (sent s) = map Z.of_nat (seq 0 (length (sent s))).
Proof.
  intros Hs. apply list_eq. intros n. rewrite !list_lookup_fmap.
  destruct (sent s !! n) as [r|] eqn:Hn; simpl.
  - destruct (safe_sent _ _ _ _ _ Hs n r Hn) as [-> _].
    rewrite lookup_seq_lt; [done|]. by eapply lookup_lt_Some.
  - apply lookup_ge_None in Hn. rewrite lookup_seq_ge; done.
Qed.

Lemma emitted_lookup (s : State) n r :
  safe s → emitted s !! n = Some r →
  ∃ v, items !! n = Some v ∧ invoke zeroR fn opt v = inl r.
Proof.
  intros Hs. unfold emitted. rewrite list_lookup_fmap.
  destruct (sent s !! n) as [ir|] eqn:Hn; [|done]. intros [= <-].
  destruct (safe_sent _ _ _ _ _ Hs n ir Hn) as [Hidx (_ & v & Hv & Hinv)].
  rewrite Hidx, Nat2Z.id in Hv. eauto.
Qed.

Lemma sequential_length (l : list T) :
  (length (sequential zeroR fn opt l) ≤ length l)%nat.
Proof.
  induction l as [|v l IH]; simpl; [lia|].
  destruct (invoke zeroR fn opt v); simpl; lia.
Qed.

Lemma prefix_sequential (rs : list (@Result R E Any)) (l : list T) :
  (∀ n r, rs !! n = Some r → ∃ v, l !! n = Some v ∧ invoke zeroR fn opt v = inl r) →
  rs `prefix_of` sequential zeroR fn opt l.
Proof.
  revert l. induction rs as [|r rs IH]; intros l Hall; [apply prefix_nil|].
  destruct (Hall 0%nat r eq_refl) as (v & Hv & Hinv).
  destruct l as [|v' l]; [done|]. injection Hv as ->. simpl. rewrite Hinv.
  apply prefix_cons, IH. intros n r' Hn. apply (Hall (S n) r' Hn).
Qed.

Lemma emitted_prefix (s : State) :
  safe s → emitted s `prefix_of` sequential zeroR fn opt items.
Proof. intros Hs. apply prefix_sequential. eauto using emitted_lookup. Qed.

Lemma sent_length (s : State) :
  safe s → Z.of_nat (length (sent s)) ≤ index s.
Proof.
  intros Hs. destruct (sent s) as [|r0 h] eqn:Hsent using rev_ind.
  - simpl. apply Hs.
  - clear IHh. rewrite length_app. simpl.
    destruct (safe_sent _ _ _ _ _ Hs (length h) r0) as [Hidx [Hr _]].
    { rewrite Hsent. by apply list_lookup_middle. }
    lia.
Qed.

(** When the collector has drained [resultChan] and [ctx] was never
    cancelled, every item has been through. *)
Lemma drained_complete (s : State) :
  safe s → lossless s → coll s = CDone ExitDrained → ctxDone s = false →
  length (sent s) = length items.
Proof.
  intros Hs Hl Hpc Hctx.
  destruct (ll_drained _ _ Hl Hpc) as [Hwait Hrbuf].
  pose proof (safe_waited _ _ _ _ _ Hs Hwait) as Hall.
  assert (Hw0 : workers s !! 0%nat = Some WDone).
  { pose proof (safe_pool _ _ _ _ _ Hs) as Hn.
    destruct (workers s) as [|pc ws] eqn:Hws; simpl in *; [lia|].
    apply Forall_cons in Hall as [-> _]. done. }
  destruct (ll_worker_done _ _ Hl Hctx _ Hw0) as [Hsub Htbuf].
  pose proof (ll_sub_done _ _ Hl Hctx Hsub) as Hidx.
  pose proof (sent_length s Hs) as Hle.
  pose proof (safe_next _ _ _ _ _ Hs) as Hnext. rewrite Hpc in Hnext.
  destruct (decide (length (sent s) = length items)) as [|Hne]; [done|exfalso].
  assert (Hi : 0 ≤ nextIndex s < index s) by lia.
  pose proof (ll_located _ _ Hl Hctx _ Hi) as Hloc.
  loc_cases Hloc.
  - by rewrite Htbuf in Hn.
  - pose proof (Forall_lookup_1 _ _ _ _ Hall Hw') as ->. done.
  - by rewrite Hrbuf in Hn.
  - rewrite (ll_absent _ _ Hl) in Hb by auto. by destruct Hb.
  - congruence.
  - lia.
Qed.

Lemma drained_sequential (s : State) :
  safe s → lossless s → coll s = CDone ExitDrained → ctxDone s = false →
  emitted s = sequential zeroR fn opt items.
Proof.
  intros Hs Hl Hpc Hctx. apply prefix_length_eq; [by apply emitted_prefix|].
  unfold emitted. rewrite length_map, (drained_complete s) by done.
  apply sequential_length.
Qed.

(** At rest no worker is in, or back from, the transform. *)
Lemma rest_workers (s : State) w pc :
  safe s → crashed s = None → quiescent s →
  chan_buf (resultChan s) = [] → waiting s = true →
  workers s !! w = Some pc → pc = WSelect ∨ pc = WDone.
Proof.
  intros Hs Hc Hq Hrbuf Hwait Hw. destruct pc; auto; exfalso.
  - stuck Hq (WorkerCall w) Hcall. unfold worker in Hcall. rewrite Hw in Hcall.
    by destruct (invoke _ _ _ _).
  - stuck Hq (WorkerSend w) Hsend. unfold worker in Hsend. rewrite Hw in Hsend.
    destruct (room_when_empty (resultChan s) r) as [rc Hrc];
      [done| |apply Hs|].
    + rewrite (safe_resultChan_closed _ _ _ _ _ Hs), Hwait. done.
    + by rewrite Hrc in Hsend.
Qed.

(** A pipeline at rest whose collector has not returned, [ctx] being
    live, waits for more input: every item so far has been through. *)
Lemma idle_complete (s : State) :
  safe s → lossless s → crashed s = None → quiescent s →
  ctxDone s = false → is_CDone (coll s) = false →
  length (sent s) = length items.
Proof.
  intros Hs Hl Hc Hq Hctx Hopen.
  assert (Hout : chan_buf (output s) = []).
  { stuck Hq (@Consume) H. unfold caller, chan_recv in H.
    by destruct (chan_buf (output s)). }
  destruct (coll s) eqn:Hpc; [| | |done].
  - stuck Hq (@CollNext) Hnext. unfold collector in Hnext.
    rewrite Hpc in Hnext.
    destruct (chan_recv (resultChan s)) eqn:Hrecv; try done.
    apply chan_recv_blocked in Hrecv as [Hrbuf Hrcl].
    rewrite (safe_resultChan_closed _ _ _ _ _ Hs) in Hrcl.
    destruct (waiting s) eqn:Hwait; [|done].
    assert (Hidle : ∀ w pc, workers s !! w = Some pc → pc = WSelect ∨ pc = WDone).
    { intros w pc. by apply rest_workers. }
    stuck Hq (@WaitClose) Hwc. unfold waiter in Hwc. rewrite Hwait in Hwc.
    destruct (forallb is_WDone (workers s)) eqn:Hall.
    { simpl in Hwc. by destruct (chan_close (resultChan s)). }
    apply not_true_iff_false in Hall. rewrite <- Is_true_true, forallb_True in Hall.
    apply not_Forall_Exists in Hall; [|solve_decision].
    apply Exists_exists in Hall as (pc & [w Hw]%list_elem_of_lookup & Hpcw).
    destruct (Hidle w pc Hw) as [->| ->]; [|by destruct Hpcw].
    stuck Hq (WorkerRecv w) Hwr. unfold worker in Hwr. rewrite Hw in Hwr.
    destruct (chan_recv (taskChan s)) eqn:Htrecv; try done.
    apply chan_recv_blocked in Htrecv as [Htbuf Htcl].
    pose proof (safe_taskChan_closed _ _ _ _ _ Hs) as Hsd. rewrite Htcl in Hsd.
    assert (Hidx : index s = Z.of_nat (length items)).
    { pose proof (safe_index _ _ _ _ _ Hs) as Hrange.
      pose proof (safe_input _ _ _ _ _ Hs) as Hdrop.
      destruct (sub s) eqn:Hsub; [| |done].
      - stuck Hq (@SubNext) Hsn. unfold submitter in Hsn.
        rewrite Hsub in Hsn.
        destruct (input s) eqn:Hin; [|done].
        specialize (Hdrop eq_refl). simpl in Hdrop.
        apply (f_equal length) in Hdrop. rewrite length_drop in Hdrop.
        simpl in Hdrop. lia.
      - stuck Hq (@SubSend) Hss. unfold submitter in Hss.
        rewrite Hsub in Hss.
        destruct (room_when_empty (taskChan s) (mkTask (index s) val))
          as [tc Htc]; [done|done|apply Hs|].
        by rewrite Htc in Hss. }
    pose proof (sent_length s Hs) as Hle.
    pose proof (safe_next _ _ _ _ _ Hs) as Hnxt. rewrite Hpc in Hnxt.
    destruct (decide (length (sent s) = length items)) as [|Hne]; [done|exfalso].
    assert (Hi : 0 ≤ nextIndex s < index s) by lia.
    pose proof (ll_located _ _ Hl Hctx _ Hi) as Hloc.
    destruct Hloc as [(n & t & Hn & _)|[(w' & pc' & Hw' & Hi')|
      [(n & r & Hn & _)|[Hb|[(it & Hit & _)|Hlt]]]]].
    + by rewrite Htbuf in Hn.
    + by destruct (Hidle w' pc' Hw') as [-> | ->].
    + by rewrite Hrbuf in Hn.
    + rewrite (ll_absent _ _ Hl) in Hb by auto. by destruct Hb.
    + congruence.
    + lia.
  - exfalso. stuck Hq (@CollLookup) Hlk. unfold collector in Hlk.
    rewrite Hpc in Hlk. by destruct (buffer s !! nextIndex s).
  - exfalso. stuck Hq (@CollEmit) Hem. unfold collector in Hem.
    rewrite Hpc in Hem.
    destruct (room_when_empty (output s) item) as [out Hsend];
      [done| |apply Hs|].
    + rewrite (safe_output_closed _ _ _ _ _ Hs), Hpc. done.
    + rewrite Hsend in Hem. destruct (is_nil (Err item)); [|done].
      by destruct (_ && _).
Qed.

(** A pipeline at rest with [ctx] live has stopped early or has sent the
    result of every item, and the caller has read all that was sent;
    whether or not [input] was closed. *)
Lemma rest_complete (s : State) :
  safe s → lossless s → crashed s = None → quiescent s → ctxDone s = false →
  received s = emitted s ∧
  (coll s = CDone ExitEarlyStop ∨
   coll s ≠ CDone ExitEarlyStop ∧ emitted s = sequential zeroR fn opt items).
Proof.
  intros Hs Hl Hc Hq Hctx.
  assert (Hout : chan_buf (output s) = []).
  { stuck Hq (@Consume) H. unfold caller, chan_recv in H.
    by destruct (chan_buf (output s)). }
  split.
  { by rewrite (safe_output _ _ _ _ _ Hs), Hout, app_nil_r. }
  assert (Hdec : coll s = CDone ExitEarlyStop ∨ coll s ≠ CDone ExitEarlyStop).
  { destruct (coll s) as [| | |[]]; auto. }
  destruct Hdec as [Hes|Hne]; [by left|right]. split; [done|].
  destruct (is_CDone (coll s)) eqn:Hd.
  - destruct (coll s) as [| | |[]] eqn:Hpc; try done.
    + by apply drained_sequential.
    + by rewrite (safe_cancelled _ _ _ _ _ Hs Hpc) in Hctx.
  - apply prefix_length_eq; [by apply emitted_prefix|].
    unfold emitted. rewrite length_map, (idle_complete s) by done.
    apply sequential_length.
Qed.


End Proofs.

(** ** Every execution is finite *)

Section Finite.

Context {T R E Any : Type}.
Variable zeroR : R.
Variable fn : TaskContext → T → @Outcome R E Any.
Variable opt : Options.

Local Abbreviation State := (@State T R E Any).

Lemma worker_potential_insert (ws : list (@WorkerPc T R E Any)) w old new :
  ws !! w = Some old →
  (sum_list_with worker_potential (<[w:=new]> ws) + worker_potential old =
   sum_list_with worker_potential ws + worker_potential new)%nat.
Proof.
  revert w. induction ws as [|pc ws IH]; intros [|w] Hw; simpl in *; try done.
  - injection Hw as ->. lia.
  - specialize (IH w Hw). lia.
Qed.

Lemma size_delete_present (m : gmap Z (@Result R E Any)) k r :
  m !! k = Some r → size m = S (size (delete k m)).
Proof.
  intros Hk. rewrite <- (insert_delete_id m k r Hk) at 1.
  apply map_size_insert_None, lookup_delete_eq.
Qed.

Local Opaque Nat.mul.

Lemma step_potential l (s s' : State) :
  step zeroR fn opt l s = Some s' → (potential s' < potential s)%nat.
Proof.
  unfold step. destruct (crashed s) eqn:Hc; [done|].
  intros Hstep. unfold potential at 2. rewrite Hc.
  destruct l; simpl in Hstep;
    unfold caller, submitter, submitter_return, worker, waiter, collector,
      collector_return in Hstep;
    repeat match type of Hstep with
    | context [chan_close ?c] => destruct (chan_close c) as [?|] eqn:?Hcl
    | context [chan_send ?c ?x] => destruct (chan_send c x) as [?| |] eqn:?Hsend
    | context [chan_recv ?c] => destruct (chan_recv c) as [? ?| |] eqn:?Hrecv
    | context [workers s !! ?w] => destruct (workers s !! w) as [[]|] eqn:?Hw
    | context [sub s] => destruct (sub s) eqn:?Hsub
    | context [coll s] => destruct (coll s) eqn:?Hpc
    | context [input s] => destruct (input s) eqn:?Hin
    | context [buffer s !! ?k] => destruct (buffer s !! k) eqn:?Hbuf
    | context [invoke ?a ?b ?c ?d] => destruct (invoke a b c d) eqn:?Hinv
    | context [waiting s && ?b] => destruct (waiting s) eqn:?Hwait; simpl in Hstep
    | context [if ?b then _ else _] => destruct b eqn:?
    end; try done; injection Hstep as <-; unfold potential; simpl;
    repeat match goal with
    | H : chan_close _ = Some _ |- _ => apply chan_close_some in H as [? ->]
    | H : chan_send _ _ = SendOk _ |- _ => apply chan_send_ok in H as (? & ? & ->)
    | H : chan_recv _ = RecvOk _ _ |- _ => apply chan_recv_ok in H as (-> & ? & ?)
    | H : sub s = _ |- _ => rewrite H; clear H
    | H : coll s = _ |- _ => rewrite H; clear H
    | H : input s = _ |- _ => rewrite H; clear H
    | H : waiting s = _ |- _ => rewrite H; clear H
    | H : ctxDone s = _ |- _ => rewrite H; clear H
    | H : crashed s = _ |- _ => rewrite H; clear H
    | H : workers s !! ?w = Some ?old |- context [<[?w:=?new]> (workers s)] =>
        apply (worker_potential_insert _ w old new) in H
    | |- context [size (<[?k:=?v]> (buffer s))] =>
        pose proof (map_size_insert k v (buffer s));
        destruct (buffer s !! k); generalize dependent (size (<[k:=v]> (buffer s)))
    | H : buffer s !! ?k = Some _ |- context [size (delete ?k (buffer s))] =>
        apply size_delete_present in H
    end; intros; simpl in *; rewrite ?length_app; simpl; lia.
Qed.

Lemma run_potential ls (s s' : State) :
  run zeroR fn opt ls s = Some s' → (length ls + potential s' ≤ potential s)%nat.
Proof.
  revert s. induction ls as [|l ls IH]; intros s Hrun; simpl in Hrun.
  - injection Hrun as <-. simpl. lia.
  - destruct (step zeroR fn opt l s) as [s1|] eqn:Hstep; [|done].
    apply step_potential in Hstep. apply IH in Hrun. simpl. lia.
Qed.

End Finite.

(** ** From the start of [MapOrdered] *)

Lemma make_chan_some {A : Type} (limit size : Z) (c : chan A) :
  make_chan limit size = Some c ↔ 0 ≤ size ≤ limit ∧ c = empty_chan size.
Proof.
  unfold make_chan.
  destruct (Z.ltb_spec size 0); destruct (Z.ltb_spec limit size); simpl;
    split; try (intros [=]); try (intros [? ->]); try done; try lia.
  all: subst; split; [lia|done].
Qed.

Lemma make_chan_none {A : Type} (limit size : Z) :
  make_chan (A:=A) limit size = None ↔ size < 0 ∨ limit < size.
Proof.
  unfold make_chan.
  destruct (Z.ltb_spec size 0); destruct (Z.ltb_spec limit size); simpl;
    split; try done; try lia; auto.
Qed.

Section Reachable.

Variable lim : Limits.
Context {T R E Any : Type}.
Variable zeroR : R.
Variable fn : TaskContext → T → @Outcome R E Any.

Local Abbreviation State := (@State T R E Any).

Lemma normalize_pool (opt : Options) :
  1 ≤ Workers (normalize opt) ≤ MaxInFlight (normalize opt).
Proof.
  unfold normalize.
  destruct (Z.leb_spec (Workers opt) 0); simpl.
  - destruct (Z.ltb_spec (MaxInFlight opt) 1); simpl; lia.
  - destruct (Z.ltb_spec (MaxInFlight opt) (Workers opt)); simpl; lia.
Qed.

Lemma normalize_rest (opt : Options) :
  EarlyStopN (normalize opt) = EarlyStopN opt ∧
  PanicAsError (normalize opt) = PanicAsError opt ∧
  TaskTimeout (normalize opt) = TaskTimeout opt.
Proof.
  unfold normalize.
  destruct (Workers opt <=? 0); simpl; destruct (MaxInFlight opt <? _); done.
Qed.

Lemma normalize_one_worker opt : Workers opt ≤ 1 → Workers (normalize opt) = 1.
Proof.
  intros Hw. unfold normalize. destruct (Z.leb_spec (Workers opt) 0); simpl.
  - by destruct (MaxInFlight opt <? 1).
  - destruct (MaxInFlight opt <? Workers opt); simpl; lia.
Qed.

Lemma taskCtx_normalize opt : taskCtx (normalize opt) = taskCtx opt.
Proof.
  unfold taskCtx. by destruct (normalize_rest opt) as (_ & _ & ->).
Qed.

(** What [MapOrdered] launches is [started] on the normalised options, and
    it launches exactly when the runtime makes the three channels. *)
Lemma MapOrdered_launched cancelled (items : list T) closes opt (s : State) :
  MapOrdered lim cancelled items closes opt = Launched s ↔
  accepts lim (MaxInFlight (normalize opt)) ∧
  s = started cancelled items closes (normalize opt).
Proof.
  unfold MapOrdered, accepts, started.
  destruct (make_chan (A:=Result) _ _) as [c1|] eqn:H1.
  2:{ apply make_chan_none in H1. split; [done|]. intros [? _]. lia. }
  destruct (make_chan (A:=indexedTask) _ _) as [c2|] eqn:H2.
  2:{ apply make_chan_none in H2. split; [done|]. intros [? _]. lia. }
  destruct (make_chan (A:=indexedResult) _ _) as [c3|] eqn:H3.
  2:{ apply make_chan_none in H3. split; [done|]. intros [? _]. lia. }
  apply make_chan_some in H1 as [? ->]. apply make_chan_some in H2 as [? ->].
  apply make_chan_some in H3 as [? ->].
  split.
  - intros [= <-]. split; [lia|done].
  - by intros [_ ->].
Qed.

Lemma reachable_run cancelled items closes opt (s : State) :
  reachable lim zeroR fn cancelled items closes opt s ↔
  accepts lim (MaxInFlight (normalize opt)) ∧
  ∃ ls, run zeroR fn (normalize opt) ls
          (started cancelled items closes (normalize opt)) = Some s.
Proof.
  unfold reachable, run_from. split.
  - intros [ls Hrun].
    destruct (MapOrdered lim cancelled items closes opt) as [s0|] eqn:Hl; [|done].
    apply MapOrdered_launched in Hl as [Hacc ->]. eauto.
  - intros [Hacc [ls Hrun]]. exists ls.
    by rewrite (proj2 (MapOrdered_launched cancelled items closes opt _)
                  (conj Hacc eq_refl)).
Qed.

Lemma reachable_safe cancelled items closes opt (s : State) :
  Z.of_nat (length items) ≤ int_max →
  reachable lim zeroR fn cancelled items closes opt s →
  safe zeroR fn items (normalize opt) s ∧ lossless items s.
Proof.
  intros Hfit [_ [ls Hrun]]%reachable_run.
  pose proof (normalize_pool opt) as Hpool. split.
  - eapply run_safe; [done|done| |done]. by apply start_safe.
  - eapply run_lossless; [done|done| | |done].
    + by apply start_safe.
    + apply start_lossless.
Qed.

Lemma step_inputCloses opt l (s s' : State) :
  step zeroR fn opt l s = Some s' → inputCloses s' = inputCloses s.
Proof.
  unfold step. destruct (crashed s); [done|].
  destruct l; simpl;
    unfold caller, submitter, submitter_return, worker, waiter, collector,
      collector_return;
    intros Hstep;
    repeat match type of Hstep with
    | context [chan_close ?c] => destruct (chan_close c) as [?|]
    | context [chan_send ?c ?x] => destruct (chan_send c x) as [?| |]
    | context [chan_recv ?c] => destruct (chan_recv c) as [? ?| |]
    | context [workers s !! ?w] => destruct (workers s !! w) as [[]|]
    | context [sub s] => destruct (sub s)
    | context [coll s] => destruct (coll s)
    | context [input s] => destruct (input s)
    | context [buffer s !! ?k] => destruct (buffer s !! k)
    | context [invoke ?a ?b ?c ?d] => destruct (invoke a b c d)
    | context [if ?b then _ else _] => destruct b eqn:?
    end; try done; by injection Hstep as <-.
Qed.

Lemma run_inputCloses opt ls (s s' : State) :
  run zeroR fn opt ls s = Some s' → inputCloses s' = inputCloses s.
Proof.
  revert s. induction ls as [|l ls IH]; intros s Hrun; simpl in Hrun.
  - by injection Hrun as <-.
  - destruct (step _ _ _ l s) as [s1|] eqn:Hstep; [|done].
    rewrite (IH _ Hrun). eauto using step_inputCloses.
Qed.

Lemma reachable_inputCloses cancelled items closes opt (s : State) :
  reachable lim zeroR fn cancelled items closes opt s → inputCloses s = closes.
Proof.
  intros [_ [ls Hrun]]%reachable_run. by rewrite (run_inputCloses _ _ _ _ Hrun).
Qed.

End Reachable.

(** Case analysis on a step that was taken. *)
Ltac step_cases Hstep l :=
  unfold step in Hstep;
  match type of Hstep with
  | context [crashed ?s] => destruct (crashed s) eqn:?Hcrash; [done|]
  end;
  destruct l; simpl in Hstep;
  unfold caller, submitter, submitter_return, worker, waiter, collector,
    collector_return in Hstep;
  repeat match type of Hstep with
  | context [chan_close ?c] => destruct (chan_close c) as [?|] eqn:?Hcl
  | context [chan_send ?c ?x] => destruct (chan_send c x) as [?| |] eqn:?Hsend
  | context [chan_recv ?c] => destruct (chan_recv c) as [? ?| |] eqn:?Hrecv
  | context [workers ?s !! ?w] => destruct (workers s !! w) as [[]|] eqn:?Hw
  | context [buffer ?s !! ?k] => destruct (buffer s !! k) eqn:?Hbuf
  | context [match sub ?s with _ => _ end] => destruct (sub s) eqn:?Hsub
  | context [match coll ?s with _ => _ end] => destruct (coll s) eqn:?Hpc
  | context [match input ?s with _ => _ end] => destruct (input s) eqn:?Hin
  | context [invoke ?a ?b ?c ?d] => destruct (invoke a b c d) eqn:?Hinv
  | context [if ?b then _ else _] => destruct b eqn:?
  end; try done; injection Hstep as <-.

Ltac unfold_invoke := unfold invoke.
Ltac unfold_step := unfold step.
Ltac unfold_step_in H := unfold step in H.
Ltac unfold_run_from_in H := unfold run_from in H.

(** * The reference *)

Section ReferenceFacts.

Context {T R E Any : Type}.
Variable zeroR : R.
Variable fn : TaskContext → T → @Outcome R E Any.

Local Abbreviation Result := (@Result R E Any).

Lemma invoke_result opt v (r : Result) :
  invoke zeroR fn opt v = inl r ↔
  outcome_result zeroR (PanicAsError opt) (fn (taskCtx opt) v) = Some r.
Proof.
  unfold invoke, outcome_result.
  destruct (fn (taskCtx opt) v); [|destruct (PanicAsError opt)];
    split; intros [=]; by subst.
Qed.

Lemma results_of_sequential opt items (rs : list Result) :
  results_of zeroR fn opt items = Some rs → sequential zeroR fn opt items = rs.
Proof.
  unfold results_of. revert rs. induction items as [|v items IH]; intros rs Hrs.
  - by injection Hrs as <-.
  - simpl in Hrs.
    destruct (outcome_result _ _ _) as [r|] eqn:Hr; [|done]. simpl in Hrs.
    destruct (mapM _ items) as [rs'|] eqn:Hrs'; [|done].
    injection Hrs as <-. simpl.
    apply invoke_result in Hr. rewrite Hr. f_equal. by apply IH.
Qed.

Lemma results_of_lookup opt items (rs : list Result) i v :
  results_of zeroR fn opt items = Some rs → items !! i = Some v →
  is_Some (outcome_result zeroR (PanicAsError opt) (fn (taskCtx opt) v)).
Proof.
  unfold results_of. intros Hrs Hi. apply mapM_Some in Hrs.
  destruct (Forall2_lookup_l _ _ _ _ _ Hrs Hi) as (r & _ & Hr). by eexists.
Qed.

Lemma results_of_length opt items (rs : list Result) :
  results_of zeroR fn opt items = Some rs → length rs = length items.
Proof. unfold results_of. intros Hrs. symmetry. by eapply length_mapM. Qed.

Lemma results_of_normalize opt items :
  results_of zeroR fn (normalize opt) items = results_of zeroR fn opt items.
Proof.
  unfold results_of. rewrite taskCtx_normalize.
  by destruct (normalize_rest opt) as (_ & -> & _).
Qed.

Lemma synchronous_results_of opt items (rs : list Result) :
  synchronous zeroR fn (taskCtx opt) items = Some rs →
  results_of zeroR fn opt items = Some rs.
Proof.
  unfold synchronous, results_of. revert rs.
  induction items as [|v items IH]; intros rs Hrs; [done|].
  simpl in *.
  destruct (fn (taskCtx opt) v) as [res err|p]; simpl in *; [|done].
  destruct (mapM _ items) as [rs'|] eqn:Hrs'; [|done].
  by rewrite (IH rs' eq_refl).
Qed.

(** ** Up to the [K]-th success *)

Lemma through_success_prefix K (rs : list Result) :
  through_success K rs `prefix_of` rs.
Proof.
  revert K. induction rs as [|r rs IH]; intros [|K]; simpl;
    try apply prefix_nil.
  apply prefix_cons, IH.
Qed.

Lemma successes_cons (r : Result) rs :
  successes (r :: rs) = (if is_success r then 1 else 0) + successes rs.
Proof. unfold successes. simpl. destruct (is_success r); simpl; lia. Qed.

Lemma successes_nonneg (rs : list Result) : 0 ≤ successes rs.
Proof. unfold successes. lia. Qed.

Lemma successes_snoc (rs : list Result) r :
  successes (rs ++ [r]) = successes rs + (if is_success r then 1 else 0).
Proof.
  unfold successes. rewrite List.filter_app, length_app. simpl.
  destruct (is_success r); simpl; lia.
Qed.

Lemma through_success_count K (rs : list Result) :
  Z.of_nat K ≤ successes rs → successes (through_success K rs) = Z.of_nat K.
Proof.
  revert K. induction rs as [|r rs IH]; intros [|K] HK; simpl; try done.
  rewrite successes_cons in *. destruct (is_success r).
  - rewrite IH by lia. lia.
  - rewrite IH by lia. lia.
Qed.

Lemma through_success_last K (rs : list Result) :
  (0 < K)%nat → Z.of_nat K ≤ successes rs →
  ∃ h r, through_success K rs = h ++ [r] ∧ is_success r = true.
Proof.
  revert K. induction rs as [|r rs IH]; intros [|K] HK Hle; simpl; try lia.
  { unfold successes in Hle. simpl in Hle. lia. }
  rewrite successes_cons in Hle. destruct (is_success r) eqn:Hr.
  - destruct K as [|K].
    + exists [], r. split; [|done]. by destruct rs.
    + destruct (IH (S K)) as (h & r' & -> & Hr'); [lia|lia|].
      by exists (r :: h), r'.
  - destruct (IH (S K)) as (h & r' & -> & Hr'); [lia|lia|].
    by exists (r :: h), r'.
Qed.

(** A prefix with fewer than [K] successes is within the first [K]. *)
Lemma prefix_through_success K (p rs : list Result) :
  p `prefix_of` rs → successes p < Z.of_nat K → p `prefix_of` through_success K rs.
Proof.
  revert K rs. induction p as [|r p IH]; intros K rs Hp HK; [apply prefix_nil|].
  destruct rs as [|r' rs]; [by apply prefix_nil_not in Hp|].
  apply prefix_cons_inv_1 in Hp as Hr. subst r'.
  apply prefix_cons_inv_2 in Hp.
  rewrite successes_cons in HK. pose proof (successes_nonneg p) as Hpos.
  destruct K as [|K]; [destruct (is_success r); lia|]. simpl.
  apply prefix_cons, IH; [done|]. destruct (is_success r); lia.
Qed.

(** A prefix that ends with the [K]-th success is the first [K]. *)
Lemma through_success_exact K (h rs : list Result) r :
  (h ++ [r]) `prefix_of` rs → is_success r = true →
  successes (h ++ [r]) = Z.of_nat K →
  through_success K rs = h ++ [r].
Proof.
  revert K rs. induction h as [|x h IH]; intros K rs Hp Hr HK.
  - simpl in *. destruct rs as [|r' rs]; [by apply prefix_nil_not in Hp|].
    apply prefix_cons_inv_1 in Hp as ->.
    rewrite successes_cons, Hr in HK. unfold successes in HK. simpl in HK.
    destruct K as [|[|K]]; try lia. simpl. rewrite Hr. by destruct rs.
  - simpl in *. destruct rs as [|r' rs]; [by apply prefix_nil_not in Hp|].
    apply prefix_cons_inv_1 in Hp as Hx. subst r'.
    apply prefix_cons_inv_2 in Hp.
    rewrite successes_cons in HK.
    pose proof (successes_nonneg h).
    rewrite successes_snoc, Hr in HK.
    destruct K as [|K]; [destruct (is_success x); lia|]. simpl. f_equal.
    apply IH; [done|done|]. rewrite successes_snoc, Hr.
    destruct (is_success x); lia.
Qed.

(** A transform that gives a result for every item never kills the
    process. *)
Lemma results_of_no_crash opt items (rs : list Result) (s : @State T R E Any) :
  safe zeroR fn items opt s → results_of zeroR fn opt items = Some rs →
  crashed s = None.
Proof.
  intros Hs Hrs. destruct (crashed s) as [c|] eqn:Hc; [exfalso|done].
  destruct (safe_crash _ _ _ _ _ Hs c Hc) as (Hp & w & t & r & Hw & Hfn & _).
  pose proof (Forall_lookup_1 _ _ _ _ (safe_workers _ _ _ _ _ Hs) Hw) as [_ Hitem].
  destruct (results_of_lookup _ _ _ _ _ Hrs Hitem) as [r' Hr'].
  by rewrite Hfn, Hp in Hr'.
Qed.

End ReferenceFacts.

(** * One worker: results are computed in index order *)

Lemma consecutive_app (f : Z) (l k : list Z) :
  consecutive f (l ++ k) ↔ consecutive f l ∧ consecutive (f + Z.of_nat (length l)) k.
Proof.
  revert f. induction l as [|x l IH]; intros f; simpl.
  - rewrite Z.add_0_r. tauto.
  - rewrite IH. replace (f + 1 + Z.of_nat (length l)) with (f + Z.pos (Pos.of_succ_nat (length l))) by lia.
    tauto.
Qed.

Section SingleWorker.

Context {T R E Any : Type}.
Variable zeroR : R.
Variable fn : TaskContext → T → @Outcome R E Any.
Variable items : list T.
Variable opt : Options.

Hypothesis items_fit : Z.of_nat (length items) ≤ int_max.
Hypothesis pool_size : 1 ≤ Workers opt ≤ MaxInFlight opt.
Hypothesis one_worker : Workers opt = 1.

Local Abbreviation State := (@State T R E Any).
Local Abbreviation safe := (safe zeroR fn items opt).

Lemma the_worker (s : State) : safe s → ∃ pc, workers s = [pc].
Proof.
  intros Hs. pose proof (safe_pool _ _ _ _ _ Hs) as Hn. rewrite one_worker in Hn.
  destruct (workers s) as [|pc [|pc' ws]]; simpl in Hn; try done. eauto.
Qed.

Lemma in_order_frame (s s' : State) :
  buffer s' = buffer s → coll s' = coll s → nextIndex s' = nextIndex s →
  computed s' = computed s → queued s' = queued s → index s' = index s →
  (Forall (λ pc, pc ≠ WDone) (workers s') → Forall (λ pc, pc ≠ WDone) (workers s)) →
  in_order s → in_order s'.
Proof.
  intros Hb Hc Hn Hcomp Hq Hi Hw [J1 J2 J3].
  constructor; unfold front; rewrite ?Hb, ?Hc, ?Hn, ?Hcomp, ?Hq, ?Hi; auto.
Qed.

Lemma no_keys (s : State) k :
  in_order s → coll s ≠ CLoop → buffer s !! k = None.
Proof.
  intros [J1 _ _] Hpc. destruct (buffer s !! k) eqn:Hk; [|done].
  destruct (J1 k) as [_ ?]; [by eexists|done].
Qed.

Lemma in_order_moved (s s' : State) :
  buffer s' = buffer s → coll s' = coll s → nextIndex s' = nextIndex s →
  index s' = index s →
  computed s' ++ queued s' = computed s ++ queued s →
  Forall (λ pc, pc ≠ WDone) (workers s) →
  in_order s → in_order s'.
Proof.
  intros Hb Hc Hn Hi Htot Hw [J1 J2 J3].
  constructor; unfold front; rewrite ?Hb, ?Hc, ?Hn, ?Hi, ?Htot; auto.
  intros Hdone. destruct (J3 Hdone Hw) as [Hcons _].
  fold (front s) in Hcons. rewrite <- Htot in Hcons.
  by apply consecutive_app in Hcons as [? _].
Qed.

Lemma in_order_worker_done (s s' : State) rest :
  buffer s' = buffer s → coll s' = coll s → nextIndex s' = nextIndex s →
  workers s' = [WDone] →
  computed s = computed s' ++ rest →
  in_order s → in_order s'.
Proof.
  intros Hb Hc Hn Hw Hpre [J1 J2 J3].
  constructor; unfold front; rewrite ?Hb, ?Hc, ?Hn; auto.
  - intros Hdone. specialize (J2 Hdone). rewrite Hpre in J2.
    by apply consecutive_app in J2 as [? _].
  - intros _ Hall. rewrite Hw in Hall. by apply Forall_cons in Hall as [? _].
Qed.

Lemma in_order_returned (s s' : State) :
  coll s ≠ CLoop → buffer s' = buffer s → is_CDone (coll s') = true →
  in_order s → in_order s'.
Proof.
  intros Hpc Hb Hdone Hio. constructor; rewrite ?Hb, ?Hdone; try done.
  intros k [r Hk]. by rewrite (no_keys s k Hio Hpc) in Hk.
Qed.

Lemma in_order_collected (s s' : State) :
  (∀ k, is_Some (buffer s' !! k) → k = nextIndex s' ∧ coll s' = CLoop) →
  front s' = front s →
  computed s' = computed s → queued s' = queued s → index s' = index s →
  workers s' = workers s → is_CDone (coll s) = false →
  in_order s → in_order s'.
Proof.
  intros Hkeys Hf Hcomp Hq Hi Hw Hpc [J1 J2 J3].
  constructor; rewrite ?Hf, ?Hcomp, ?Hq, ?Hi, ?Hw; auto.
Qed.

Lemma in_order_received (s : State) x c sc out snt :
  coll s = CRange → chan_buf (resultChan s) = x :: chan_buf c →
  in_order s →
  in_order (set_collector c CLoop (<[res_index x:=res_res x]> (buffer s))
              (nextIndex s) sc out snt s).
Proof.
  intros Hpc Hb Hio.
  assert (Hnone : ∀ k, buffer s !! k = None).
  { intros k. apply no_keys; [done|congruence]. }
  destruct Hio as [J1 J2 J3].
  assert (Hfront : front s = nextIndex s).
  { unfold front. rewrite Hpc, Hnone. lia. }
  rewrite Hpc in J2, J3. specialize (J2 eq_refl). specialize (J3 eq_refl).
  rewrite Hfront in J2, J3. unfold computed in J2, J3. rewrite Hb in J2, J3.
  simpl in J2, J3. destruct J2 as [Hx J2].
  assert (Hfront' : front (set_collector c CLoop (<[res_index x:=res_res x]> (buffer s))
              (nextIndex s) sc out snt s) = nextIndex s + 1).
  { unfold front. simpl. rewrite Hx, lookup_insert_eq. lia. }
  constructor; rewrite ?Hfront'; unfold computed, queued; simpl.
  - intros k [r Hk]. destruct (decide (res_index x = k)) as [<-|Hne].
    + done.
    + rewrite lookup_insert_ne in Hk by done. by rewrite Hnone in Hk.
  - done.
  - intros _ Hall. destruct (J3 Hall) as [[_ Hcons] Hlen]. split; [done|].
    unfold queued in Hlen. lia.
Qed.

Ltac frame s :=
  apply (in_order_frame s);
    [reflexivity|reflexivity|reflexivity|unfold computed; simpl; congruence
    |reflexivity|reflexivity|simpl; congruence|assumption].

Lemma step_in_order l (s s' : State) :
  safe s → in_order s → step zeroR fn opt l s = Some s' → in_order s'.
Proof.
  intros Hs Hio Hstep.
  destruct (the_worker s Hs) as [pc Hws].
  step_cases Hstep l;
    repeat match goal with
    | H : chan_close _ = Some _ |- _ => apply chan_close_some in H as [? ->]
    | H : chan_send _ _ = SendOk _ |- _ => apply chan_send_ok in H as (? & ? & ->)
    | H : chan_recv ?c = RecvOk _ _ |- _ =>
        let Hb := fresh "Hb" in apply chan_recv_ok in H as (Hb & ? & ?)
    | H : workers s !! ?w = Some _ |- _ =>
        rewrite Hws in H; destruct w as [|?]; [injection H as ->|done]
    end;
    try solve [frame s];
    try match goal with
    | |- in_order (set_worker 0 WDone _ _ _) =>
        eapply (in_order_worker_done s); [done|done|done|simpl; by rewrite Hws| |done];
        unfold computed; simpl; rewrite Hws; simpl; rewrite <- ?app_assoc; reflexivity
    | |- in_order (set_worker 0 _ _ _ _) =>
        apply (in_order_moved s); [done|done|done|done| |by rewrite Hws; repeat constructor|done];
        unfold computed, queued; simpl; rewrite Hws; simpl;
        rewrite ?Hb, ?map_app, <- ?app_assoc; simpl; reflexivity
    | |- in_order (set_collector _ (CDone _) _ _ _ _ _ _) =>
        apply (in_order_returned s); [congruence|done|done|done]
    | |- in_order (set_collector _ CLoop (<[_:=_]> _) _ _ _ _ _) =>
        by apply in_order_received
    end.
  1: { (* SubSend *)
    destruct Hio as [J1 J2 J3].
    pose proof (safe_input _ _ _ _ _ Hs) as Hdrop. rewrite Hsub in Hdrop.
    specialize (Hdrop eq_refl). apply (f_equal length) in Hdrop.
    rewrite length_drop in Hdrop. simpl in Hdrop.
    pose proof (safe_index _ _ _ _ _ Hs) as Hidx.
    assert (Hinc : int_incr (index s) = index s + 1) by (apply int_incr_small; lia).
    constructor; try done.
    unfold front, computed, queued. simpl. intros Hdone Hall.
    destruct (J3 Hdone Hall) as [Hcons Hlen].
    rewrite map_app, app_assoc. split.
    + apply consecutive_app. split; [done|]. simpl. split; [|done].
      unfold front, computed, queued in Hlen. lia.
    + rewrite length_app. simpl. unfold front, computed, queued in Hlen. lia.
  }
  1: { (* CollLookup, found *)
    apply (in_order_collected s); try done; [| |by rewrite Hpc].
    + simpl. intros k [r' Hk]. apply lookup_delete_Some in Hk as [Hne Hk].
      destruct (io_buffer _ Hio k) as [? _]; [by eexists|done].
    + unfold front. simpl. rewrite lookup_delete_eq, Hpc, Hbuf. lia.
  }
  1: { (* CollLookup, not found *)
    apply (in_order_collected s); try done; [| |by rewrite Hpc].
    + simpl. intros k [r' Hk].
      destruct (io_buffer _ Hio k) as [-> _]; [by eexists|congruence].
    + unfold front. simpl. by rewrite Hpc.
  }
  all: (* CollEmit, going on *)
    destruct (safe_item _ _ _ _ _ Hs _ Hpc) as [[[Hlo Hhi] _] _]; simpl in Hlo, Hhi;
    pose proof (safe_index _ _ _ _ _ Hs) as Hidx;
    assert (Hinc : int_incr (nextIndex s) = nextIndex s + 1)
      by (apply int_incr_small; lia);
    assert (Hnone : ∀ k, buffer s !! k = None)
      by (intros k; apply no_keys; [done|congruence]);
    apply (in_order_collected s); try done;
    first [ by rewrite Hpc
          | unfold front; simpl; rewrite Hpc, !Hnone, Hinc; lia
          | simpl; intros k [r' Hk]; by rewrite Hnone in Hk ].
Qed.

(** With one worker the reorder buffer holds the result for [nextIndex]
    or nothing. *)
Lemma in_order_size (s : State) :
  in_order s →
  size (buffer s) = if buffer s !! nextIndex s is Some _ then 1%nat else 0%nat.
Proof.
  intros Hio.
  assert (Hkeys : ∀ k, is_Some (buffer s !! k) → k = nextIndex s).
  { intros k Hk. by destruct (io_buffer _ Hio k Hk). }
  destruct (buffer s !! nextIndex s) as [r|] eqn:Hn.
  - replace (buffer s) with ({[nextIndex s := r]} : gmap Z _).
    { by rewrite map_size_singleton. }
    apply map_eq. intros k. destruct (decide (k = nextIndex s)) as [->|Hne].
    + by rewrite lookup_singleton_eq.
    + rewrite lookup_singleton_ne by done. symmetry.
      destruct (buffer s !! k) eqn:Hk; [|done].
      destruct Hne. apply Hkeys. by eexists.
  - replace (buffer s) with (∅ : gmap Z (@Result R E Any)).
    { by rewrite map_size_empty. }
    symmetry. apply map_empty. intros k.
    destruct (buffer s !! k) eqn:Hk; [|done].
    rewrite (Hkeys k) in Hk by (by eexists). congruence.
Qed.
Lemma run_in_order ls (s s' : State) :
  safe s → in_order s → run zeroR fn opt ls s = Some s' → in_order s'.
Proof.
  revert s. induction ls as [|l ls IH]; intros s Hs Hio Hrun; simpl in Hrun.
  - by injection Hrun as <-.
  - destruct (step zeroR fn opt l s) as [s1|] eqn:Hstep; [|done].
    apply (IH s1); [by eapply step_safe|by eapply step_in_order|done].
Qed.

Lemma start_in_order cancelled closes :
  in_order (started cancelled items closes opt : State).
Proof.
  constructor; simpl.
  - intros k [r Hk]. by rewrite lookup_empty in Hk.
  - unfold front, computed. simpl. intros _. clear.
    induction (Z.to_nat (Workers opt)); simpl; auto.
  - intros _. unfold front, computed, queued. simpl. rewrite app_nil_r.
    rewrite one_worker. simpl. done.
Qed.

End SingleWorker.

(** * The claims *)

Section Claims.

Variable lim : Limits.
Context {T R E Any : Type}.
Variable zeroR : R.
Variable fn : TaskContext → T → @Outcome R E Any.

Local Abbreviation State := (@State T R E Any).
Local Abbreviation reachable := (reachable lim zeroR fn).
Local Abbreviation step := (step zeroR fn).
Local Abbreviation run := (run zeroR fn).
Local Abbreviation invoke := (invoke zeroR fn).
Local Abbreviation sequential := (sequential zeroR fn).
Local Abbreviation quiescent := (quiescent zeroR fn).
Local Abbreviation results_of := (results_of zeroR fn).
Local Abbreviation synchronous := (synchronous zeroR fn).

(** Once the collector has returned, nothing is sent on [output] any more. *)
Lemma returned_step opt l (s s' : State) :
  is_CDone (coll s) = true → step opt l s = Some s' →
  coll s' = coll s ∧ sent s' = sent s ∧
  chan_closed (output s') = chan_closed (output s).
Proof.
  intros Hdone Hstep. step_cases Hstep l; simpl; try done.
  by apply chan_recv_ok in Hrecv as (_ & _ & ->).
Qed.

Lemma returned_run opt ls (s s' : State) :
  is_CDone (coll s) = true → run opt ls s = Some s' →
  coll s' = coll s ∧ sent s' = sent s ∧
  chan_closed (output s') = chan_closed (output s).
Proof.
  revert s. induction ls as [|l ls IH]; intros s Hdone Hrun; simpl in Hrun.
  - by injection Hrun as <-.
  - destruct (step opt l s) as [s1|] eqn:Hstep; [|done].
    destruct (returned_step _ _ _ _ Hdone Hstep) as (E1 & E2 & E3).
    rewrite <- E1, <- E2, <- E3. apply IH; [|done]. by rewrite E1.
Qed.

(** A worker blocked on a full [resultChan] that nobody reads stays
    blocked until [ctx] is cancelled. *)
Lemma stranded_step opt l (s s' : State) w r :
  is_CDone (coll s) = true → chan_has_room (resultChan s) = false →
  workers s !! w = Some (WSend r) → ctxDone s = false →
  l ≠ Cancel → step opt l s = Some s' →
  is_CDone (coll s') = true ∧ chan_has_room (resultChan s') = false ∧
  workers s' !! w = Some (WSend r) ∧ ctxDone s' = false.
Proof.
  intros Hdone Hfull Hw Hctx Hl Hstep.
  step_cases Hstep l; simpl; try done.
  - rewrite list_lookup_insert_ne by congruence. done.
  - rewrite list_lookup_insert_ne by congruence. done.
  - rewrite list_lookup_insert_ne by congruence. done.
  - apply chan_send_ok in Hsend as (_ & Hroom & _).
    unfold chan_has_room in Hfull. lia.
  - match goal with H : _ && _ = true |- _ => apply andb_true_iff in H as [_ Hall] end.
    apply Is_true_true, forallb_True in Hall.
    by pose proof (Forall_lookup_1 _ _ _ _ Hall Hw).
Qed.

Lemma stranded_run opt ls (s s' : State) w r :
  is_CDone (coll s) = true → chan_has_room (resultChan s) = false →
  workers s !! w = Some (WSend r) → ctxDone s = false →
  Cancel ∉ ls → run opt ls s = Some s' →
  workers s' !! w = Some (WSend r).
Proof.
  revert s. induction ls as [|l ls IH]; intros s Hdone Hfull Hw Hctx Hls Hrun;
    simpl in Hrun.
  - by injection Hrun as <-.
  - destruct (step opt l s) as [s1|] eqn:Hstep; [|done].
    apply not_elem_of_cons in Hls as [Hl Hls].
    destruct (stranded_step opt l s s1 w r Hdone Hfull Hw Hctx
                (not_eq_sym Hl) Hstep) as (? & ? & ? & ?).
    eauto.
Qed.

(** C1. Whatever the input sequence and the options, the results sent on
    [output] carry the original indices 0, 1, 2, ... in this order, with no
    gap: the n-th send is the result of the n-th input item, so of two
    results sent the one with the smaller index is sent first.  [emitted]
    is what the caller has received followed by what [output] still
    holds. *)
Theorem emitted_in_index_order cancelled items closes opt (s : State) :
  Z.of_nat (length items) ≤ int_max →
  reachable cancelled items closes opt s →
  map res_index (sent s) = map Z.of_nat (seq 0 (length (sent s))) ∧
  (∀ n r, sent s !! n = Some r →
     ∃ v, items !! n = Some v ∧ invoke (normalize opt) v = inl (res_res r)) ∧
  (∀ i j ri rj, sent s !! i = Some ri → sent s !! j = Some rj →
     res_index ri < res_index rj → (i < j)%nat) ∧
  emitted s = received s ++ chan_buf (output s).
Proof.
  intros Hfit Hreach.
  destruct (reachable_safe _ _ _ _ _ _ _ _ Hfit Hreach) as [Hs _].
  split; [|split; [|split]].
  - eapply sent_indices; eauto.
  - intros n r Hn. eapply emitted_lookup; [done|].
    unfold emitted. by rewrite list_lookup_fmap, Hn.
  - intros i j ri rj Hi Hj Hlt.
    destruct (safe_sent _ _ _ _ _ Hs i ri Hi) as [Hri _].
    destruct (safe_sent _ _ _ _ _ Hs j rj Hj) as [Hrj _]. lia.
  - apply Hs.
Qed.

(** What the pipeline has delivered when it has come to rest and [ctx]
    was not cancelled. *)
Lemma at_rest cancelled items closes opt (s : State) :
  Z.of_nat (length items) ≤ int_max →
  reachable cancelled items closes opt s →
  ctxDone s = false → closes = true → crashed s = None →
  quiescent (normalize opt) s →
  received s = emitted s ∧ chan_closed (output s) = true ∧
  (coll s = CDone ExitEarlyStop ∨
   coll s = CDone ExitDrained ∧ emitted s = sequential (normalize opt) items ∧
   length (emitted s) = length items).
Proof.
  intros Hfit Hreach Hctx Hcloses Hcrash Hq.
  destruct (reachable_safe _ _ _ _ _ _ _ _ Hfit Hreach) as [Hs Hl].
  pose proof (normalize_pool opt) as Hpool.
  pose proof (reachable_inputCloses _ _ _ _ _ _ _ _ Hreach) as Hic.
  destruct (quiescent_done zeroR fn items (normalize opt) Hpool s Hs Hcrash Hq)
    as [Hdone Hout]; [right; congruence|].
  split; [|split].
  - rewrite (safe_output _ _ _ _ _ Hs), Hout, app_nil_r. done.
  - by rewrite (safe_output_closed _ _ _ _ _ Hs).
  - destruct (coll s) as [| | |[]] eqn:Hpc; try done.
    + right. split; [done|]. split.
      * eapply drained_sequential; eauto.
      * unfold emitted. rewrite length_map. eapply drained_complete; eauto.
    + by left.
    + by rewrite (safe_cancelled _ _ _ _ _ Hs Hpc) in Hctx.
Qed.

(** C2, amended.  With [EarlyStopN = K > 0], a transform that gives a
    result for every item and at least [K] successes among these results,
    [stop] is the results up to the [K]-th success: exactly [K] successes
    together with every failure before the [K]-th success.  What is sent on
    [output] is always a prefix of [stop], so that nothing beyond the
    [K]-th success is ever sent; the collector stops early exactly when
    all of [stop] is sent, and closes [output]; and a pipeline that has
    come to rest without cancellation, whether or not [input] was closed,
    has stopped early and delivered exactly [stop].  It does come to rest,
    no execution being longer than the potential of its first state. *)
Theorem early_stop_after_K_successes cancelled items closes opt (s : State) expected :
  Z.of_nat (length items) ≤ int_max →
  0 < EarlyStopN opt →
  results_of opt items = Some expected →
  EarlyStopN opt ≤ successes expected →
  reachable cancelled items closes opt s →
  let stop := through_success (Z.to_nat (EarlyStopN opt)) expected in
  (stop `prefix_of` expected ∧ successes stop = EarlyStopN opt ∧
   ∃ h r, stop = h ++ [r] ∧ is_success r = true) ∧
  emitted s `prefix_of` stop ∧
  (coll s = CDone ExitEarlyStop ↔ emitted s = stop) ∧
  (coll s = CDone ExitEarlyStop → chan_closed (output s) = true) ∧
  (ctxDone s = false → quiescent (normalize opt) s →
     coll s = CDone ExitEarlyStop ∧ chan_closed (output s) = true ∧
     received s = stop) ∧
  (∀ ls s', run (normalize opt) ls s = Some s' → (length ls ≤ potential s)%nat).
Proof.
  intros Hfit HK Hexp Havail Hreach stop.
  destruct (reachable_safe _ _ _ _ _ _ _ _ Hfit Hreach) as [Hs Hl].
  destruct (normalize_rest opt) as (HKn & _ & _).
  pose proof (normalize_pool opt) as Hpool.
  rewrite <- (results_of_normalize zeroR fn) in Hexp.
  pose proof (results_of_sequential _ _ _ _ _ Hexp) as Hseq.
  pose proof (results_of_no_crash _ _ _ _ _ _ Hs Hexp) as Hcrash.
  set (K := Z.to_nat (EarlyStopN opt)) in *.
  assert (HKz : Z.of_nat K = EarlyStopN opt) by (unfold K; lia).
  pose proof (safe_quota _ _ _ _ _ Hs) as Hquota. rewrite HKn in Hquota.
  specialize (Hquota HK).
  pose proof (safe_count _ _ _ _ _ Hs) as Hcount.
  pose proof (safe_output_closed _ _ _ _ _ Hs) as Hclosed.
  pose proof (emitted_prefix _ _ _ _ _ Hs) as Hpre. rewrite Hseq in Hpre.
  assert (Hstop : coll s = CDone ExitEarlyStop → emitted s = stop).
  { intros Hpc. rewrite Hpc in Hquota. destruct Hquota as (Hn & h & r & Hem & Hr).
    unfold stop. symmetry. rewrite Hem in *.
    apply through_success_exact; [done|done|lia]. }
  assert (Hnot : coll s ≠ CDone ExitEarlyStop → successes (emitted s) < EarlyStopN opt).
  { intros Hpc. rewrite <- Hcount. by destruct (coll s) as [| | |[]]. }
  assert (Hcnt : successes stop = EarlyStopN opt).
  { unfold stop. rewrite through_success_count; lia. }
  assert (Hdec : coll s = CDone ExitEarlyStop ∨ coll s ≠ CDone ExitEarlyStop).
  { destruct (coll s) as [| | |[]]; auto. }
  split; [|split; [|split; [|split; [|split]]]].
  - split; [apply through_success_prefix|]. split; [done|].
    apply through_success_last; lia.
  - destruct Hdec as [Hpc|Hpc]; [by rewrite (Hstop Hpc)|].
    apply prefix_through_success; [done|]. specialize (Hnot Hpc). lia.
  - split; [done|]. intros Hem. destruct Hdec as [Hpc|Hpc]; [done|].
    specialize (Hnot Hpc). rewrite Hem in Hnot. lia.
  - intros Hpc. by rewrite Hclosed, Hpc.
  - intros Hctx Hq.
    destruct (rest_complete zeroR fn items (normalize opt) Hpool s Hs Hl Hcrash Hq Hctx)
      as (Hrcv & [Hpc|[Hpc Hall]]).
    + split; [done|]. split; [by rewrite Hclosed, Hpc|]. by rewrite Hrcv, Hstop.
    + specialize (Hnot Hpc). rewrite Hall, Hseq in Hnot. lia.
  - intros ls s' Hrun. apply run_potential in Hrun. lia.
Qed.

(** C5.  With [Workers = 1], no early stop and no cancellation, and
    [expected] what applying the transform to the items one after the other
    gives: what is sent on [output] is at every moment a prefix of
    [expected], it is all of it once the collector has returned, and a
    pipeline at rest has delivered exactly [expected], and closed [output] if
    [input] was closed.  The pool computes in that order too: there is one
    worker, and whenever it holds the task or the result of item [i], the
    results of the items before [i], and no others, have been handed on (to
    [resultChan], the reorder buffer, the collector's hand or [output]).  The
    pipeline does come to rest, no execution being longer than the
    potential of its first state. *)
Theorem single_worker_sequential cancelled items closes opt (s : State) expected :
  Z.of_nat (length items) ≤ int_max →
  Workers opt = 1 →
  EarlyStopN opt ≤ 0 →
  synchronous (taskCtx opt) items = Some expected →
  reachable cancelled items closes opt s →
  ctxDone s = false →
  emitted s `prefix_of` expected ∧
  (is_CDone (coll s) = true → emitted s = expected) ∧
  (quiescent (normalize opt) s →
     received s = expected ∧ (closes = true → chan_closed (output s) = true)) ∧
  length (workers s) = 1%nat ∧
  (∀ w pc i, workers s !! w = Some pc → worker_holds pc i →
     i = Z.of_nat (length (sent s) + (if coll s is CSelect _ then 1 else 0)
                   + size (buffer s) + length (chan_buf (resultChan s)))) ∧
  (∀ ls s', run (normalize opt) ls s = Some s' → (length ls ≤ potential s)%nat).
Proof.
  intros Hfit Hone HK Hsync Hreach Hctx.
  destruct (reachable_safe _ _ _ _ _ _ _ _ Hfit Hreach) as [Hs Hl].
  destruct (normalize_rest opt) as (HKn & _ & _).
  pose proof (normalize_pool opt) as Hpool.
  assert (Hone' : Workers (normalize opt) = 1).
  { apply normalize_one_worker. lia. }
  pose proof (synchronous_results_of _ _ _ _ _ Hsync) as Hexp.
  rewrite <- (results_of_normalize zeroR fn) in Hexp.
  pose proof (results_of_sequential _ _ _ _ _ Hexp) as Hseq.
  pose proof (results_of_no_crash _ _ _ _ _ _ Hs Hexp) as Hcrash.
  pose proof (safe_output_closed _ _ _ _ _ Hs) as Hclosed.
  assert (Hlate : coll s ≠ CDone ExitEarlyStop).
  { intros Hpc. pose proof (safe_early _ _ _ _ _ Hs Hpc). lia. }
  assert (Hio : in_order s).
  { apply reachable_run in Hreach as [_ [ls Hrun]].
    apply (run_in_order zeroR fn items (normalize opt) Hfit Hpool Hone' ls _ s
             (start_safe zeroR fn items (normalize opt) Hpool cancelled closes)
             (start_in_order items (normalize opt) Hone' cancelled closes) Hrun). }
  destruct (the_worker zeroR fn items (normalize opt) Hone' s Hs) as [pc0 Hws].
  split; [|split; [|split; [|split; [|split]]]].
  - rewrite <- Hseq. by eapply emitted_prefix.
  - intros Hdone. destruct (coll s) as [| | |[]] eqn:Hpc; try done.
    + rewrite <- Hseq. eapply drained_sequential; eauto.
    + by rewrite (safe_cancelled _ _ _ _ _ Hs Hpc) in Hctx.
  - intros Hq.
    destruct (rest_complete zeroR fn items (normalize opt) Hpool s Hs Hl Hcrash Hq Hctx)
      as (Hrcv & [Hpc|[_ Hall]]); [done|].
    split; [congruence|]. intros Hcloses.
    pose proof (reachable_inputCloses _ _ _ _ _ _ _ _ Hreach) as Hic.
    destruct (quiescent_done zeroR fn items (normalize opt) Hpool s Hs Hcrash Hq)
      as [Hdone _]; [right; congruence|congruence].
  - by rewrite Hws.
  - intros w pc i Hw Hi. rewrite Hws in Hw.
    destruct w as [|w]; [injection Hw as ->|done].
    pose proof (safe_next _ _ _ _ _ Hs) as Hnext.
    destruct (is_CDone (coll s)) eqn:Hdone.
    { exfalso. destruct (coll s) as [| | |[]] eqn:Hpc; try done.
      - destruct (ll_drained _ _ Hl Hpc) as [Hwait _].
        pose proof (safe_waited _ _ _ _ _ Hs Hwait) as Hall. rewrite Hws in Hall.
        apply Forall_cons in Hall as [-> _]. done.
      - by rewrite (safe_cancelled _ _ _ _ _ Hs Hpc) in Hctx. }
    pose proof (io_computed _ Hio Hdone) as Hc.
    unfold computed in Hc. rewrite Hws in Hc. simpl in Hc. rewrite app_nil_r in Hc.
    apply consecutive_app in Hc as [_ Hc]. rewrite length_map in Hc.
    rewrite (in_order_size s Hio). unfold front in Hc.
    assert (Hn : nextIndex s = Z.of_nat (length (sent s))).
    { destruct (coll s) as [| | |[]]; try done; lia. }
    assert (Hidx : worker_index pc = [i]).
    { destruct pc; simpl in *; by subst. }
    rewrite Hidx in Hc. simpl in Hc. destruct Hc as [-> _].
    destruct (coll s); destruct (buffer s !! nextIndex s); lia.
  - intros ls s' Hrun. apply run_potential in Hrun. lia.
Qed.

(** C4.  A panic of the transform on item [i] with [PanicAsError] set is
    recovered and becomes [&PanicError{Panic: p}], the error of the result
    in slot [i]; the process never dies and, at rest, the slot has been
    delivered.  With [PanicAsError] unset the worker panics again with the
    same value: the process dies and slot [i] never gets a result. *)
Theorem panic_captured_or_propagated cancelled items closes opt (s : State) i v p :
  Z.of_nat (length items) ≤ int_max →
  reachable cancelled items closes opt s →
  items !! i = Some v →
  fn (taskCtx opt) v = Panics p →
  (PanicAsError opt = true →
     let r := mkResult zeroR (Some (ErrPanic (mkPanicError p))) in
     invoke (normalize opt) v = inl r ∧
     crashed s = None ∧
     (∀ r', emitted s !! i = Some r' → r' = r) ∧
     (ctxDone s = false → closes = true → EarlyStopN opt ≤ 0 →
      quiescent (normalize opt) s →
        received s !! i = Some r ∧ chan_closed (output s) = true)) ∧
  (PanicAsError opt = false →
     invoke (normalize opt) v = inr p ∧
     emitted s !! i = None ∧
     ∀ w t, workers s !! w = Some (WCall t) → task_value t = v →
       crashed s = None →
       step (normalize opt) (WorkerCall w) s = Some (set_crashed (CrashPanic p) s)).
Proof.
  intros Hfit Hreach Hi Hfn.
  destruct (reachable_safe _ _ _ _ _ _ _ _ Hfit Hreach) as [Hs Hl].
  destruct (normalize_rest opt) as (HKn & Hpn & _).
  assert (Hinv : invoke (normalize opt) v =
            if PanicAsError opt
            then inl (mkResult zeroR (Some (ErrPanic (mkPanicError p))))
            else inr p).
  { unfold_invoke. by rewrite taskCtx_normalize, Hfn, Hpn. }
  assert (Hslot : ∀ r', emitted s !! i = Some r' → invoke (normalize opt) v = inl r').
  { intros r' Hr'. destruct (emitted_lookup _ _ _ _ _ _ _ Hs Hr') as (v' & Hv' & Hr).
    congruence. }
  split; intros Hp; rewrite Hp in Hinv.
  - simpl. split; [done|].
    assert (Hcrash : crashed s = None).
    { destruct (crashed s) as [c|] eqn:Hc; [|done].
      destruct (safe_crash _ _ _ _ _ Hs c Hc) as [Hbad _]. congruence. }
    split; [done|]. split.
    + intros r' Hr'. apply Hslot in Hr'. congruence.
    + intros Hctx Hcloses HK Hq.
      destruct (at_rest _ _ _ _ _ Hfit Hreach Hctx Hcloses Hcrash Hq)
        as (Hrcv & Hcl & [Hes|(_ & Hseq & Hlen)]).
      { pose proof (safe_early _ _ _ _ _ Hs Hes). lia. }
      split; [|done]. rewrite Hrcv.
      destruct (emitted s !! i) as [r'|] eqn:Hr'.
      * pose proof (Hslot r' eq_refl). congruence.
      * apply lookup_ge_None in Hr'. apply lookup_lt_Some in Hi. lia.
  - split; [done|]. split.
    + destruct (emitted s !! i) as [r'|] eqn:Hr'; [|done].
      pose proof (Hslot r' eq_refl). congruence.
    + intros w t Hw <- Hcrash. unfold_step; unfold worker.
      by rewrite Hcrash, Hw, Hinv.
Qed.

(** C7.  An error returned by the transform for item [i] does not end the
    pipeline: the result in slot [i] carries that error, sending it leaves
    the collector in its loop whatever [EarlyStopN] is, and without
    cancellation or early stop the pipeline comes to rest only when every
    slot, this one included, has been delivered. *)
Theorem error_stays_in_its_slot cancelled items closes opt (s : State) i v res e :
  Z.of_nat (length items) ≤ int_max →
  reachable cancelled items closes opt s →
  items !! i = Some v →
  fn (taskCtx opt) v = Returns res (Some e) →
  let r := mkResult res (Some e) in
  (∀ r', emitted s !! i = Some r' → r' = r) ∧
  (∀ w t, workers s !! w = Some (WCall t) → task_value t = v → crashed s = None →
     step (normalize opt) (WorkerCall w) s =
     Some (set_worker w (WSend (mkIndexed (task_index t) r))
             (taskChan s) (resultChan s) s)) ∧
  (∀ s', coll s = CSelect r → step (normalize opt) CollEmit s = Some s' →
     coll s' = CLoop ∧ nextIndex s' = nextIndex s + 1 ∧
     emitted s' = emitted s ++ [r] ∧ crashed s' = None) ∧
  (ctxDone s = false → closes = true → EarlyStopN opt ≤ 0 → crashed s = None →
   quiescent (normalize opt) s →
     received s !! i = Some r ∧ length (received s) = length items).
Proof.
  intros Hfit Hreach Hi Hfn r.
  destruct (reachable_safe _ _ _ _ _ _ _ _ Hfit Hreach) as [Hs Hl].
  assert (Hinv : invoke (normalize opt) v = inl r).
  { unfold_invoke. by rewrite taskCtx_normalize, Hfn. }
  assert (Hslot : ∀ r', emitted s !! i = Some r' → r' = r).
  { intros r' Hr'. destruct (emitted_lookup _ _ _ _ _ _ _ Hs Hr') as (v' & Hv' & Hr).
    congruence. }
  split; [done|]. split; [|split].
  - intros w t Hw <- Hcrash. unfold_step; unfold worker.
    by rewrite Hcrash, Hw, Hinv.
  - intros s' Hpc Hstep.
    destruct (safe_item _ _ _ _ _ Hs _ Hpc) as [[Hrange _] _]. simpl in Hrange.
    pose proof (safe_index _ _ _ _ _ Hs) as Hidx.
    unfold_step_in Hstep.
    destruct (crashed s) eqn:Hcrash; [done|]. simpl in Hstep.
    unfold collector in Hstep. rewrite Hpc in Hstep.
    destruct (chan_send (output s) r) as [out| |] eqn:Hsend; [|done|].
    + simpl in Hstep. injection Hstep as <-. simpl.
      rewrite int_incr_small by lia. unfold emitted. simpl.
      by rewrite map_app.
    + apply chan_send_panic in Hsend.
      rewrite (safe_output_closed _ _ _ _ _ Hs), Hpc in Hsend. done.
  - intros Hctx Hcloses HK Hcrash Hq.
    destruct (at_rest _ _ _ _ _ Hfit Hreach Hctx Hcloses Hcrash Hq)
      as (Hrcv & Hcl & [Hes|(_ & Hseq & Hlen)]).
    { pose proof (safe_early _ _ _ _ _ Hs Hes) as HK'.
      destruct (normalize_rest opt) as (HKn & _ & _). lia. }
    rewrite Hrcv. split; [|done].
    destruct (emitted s !! i) as [r'|] eqn:Hr'.
    + by rewrite (Hslot r' eq_refl).
    + apply lookup_ge_None in Hr'. apply lookup_lt_Some in Hi. lia.
Qed.

(** C6, amended.  Options out of range are replaced, never refused:
    [Workers ≤ 0] becomes 1, then [MaxInFlight] below the new [Workers]
    becomes that value, and the other fields are kept.  [MapOrdered] has no
    error of its own for any [Options]: whenever the runtime makes channels
    of the normalised [MaxInFlight] it launches the pipeline with the
    normalised values, a pool of [Workers] workers and three open, empty
    channels of capacity [MaxInFlight], nothing crashed; otherwise it stops
    at the first [make] that the runtime refuses, with the panic of
    [make]. *)
Theorem options_are_normalized cancelled (items : list T) closes (opt : Options) :
  let opt' := normalize opt in
  Workers opt' = (if Workers opt <=? 0 then 1 else Workers opt) ∧
  MaxInFlight opt' =
    (if MaxInFlight opt <? Workers opt' then Workers opt' else MaxInFlight opt) ∧
  EarlyStopN opt' = EarlyStopN opt ∧
  PanicAsError opt' = PanicAsError opt ∧
  TaskTimeout opt' = TaskTimeout opt ∧
  1 ≤ Workers opt' ≤ MaxInFlight opt' ∧
  match MapOrdered lim cancelled items closes opt with
  | Launched s =>
      accepts lim (MaxInFlight opt') ∧
      crashed (s : State) = None ∧
      workers s = replicate (Z.to_nat (Workers opt')) WSelect ∧
      taskChan s = empty_chan (MaxInFlight opt') ∧
      resultChan s = empty_chan (MaxInFlight opt') ∧
      output s = empty_chan (MaxInFlight opt') ∧
      input s = items ∧ received s = [] ∧ sent s = []
  | MakePanics MakeOutput =>
      max_Result lim < MaxInFlight opt'
  | MakePanics MakeTaskChan =>
      MaxInFlight opt' ≤ max_Result lim ∧
      max_indexedTask lim < MaxInFlight opt'
  | MakePanics MakeResultChan =>
      MaxInFlight opt' ≤ max_Result lim ∧
      MaxInFlight opt' ≤ max_indexedTask lim ∧
      max_indexedResult lim < MaxInFlight opt'
  end.
Proof.
  simpl. pose proof (normalize_pool opt) as Hpool.
  destruct (normalize_rest opt) as (H1 & H2 & H3).
  split; [|split; [|split; [done|split; [done|split; [done|split; [done|]]]]]].
  - unfold normalize. destruct (Workers opt <=? 0); simpl;
      by destruct (MaxInFlight opt <? _).
  - unfold normalize.
    destruct (Workers opt <=? 0) eqn:Hw; simpl.
    + destruct (MaxInFlight opt <? 1) eqn:Hm; simpl; by rewrite Hm.
    + destruct (MaxInFlight opt <? Workers opt) eqn:Hm; simpl; by rewrite Hm.
  - unfold MapOrdered.
    destruct (make_chan (A:=Result) _ _) as [c1|] eqn:E1.
    2:{ apply make_chan_none in E1. lia. }
    apply make_chan_some in E1 as [? ->].
    destruct (make_chan (A:=indexedTask) _ _) as [c2|] eqn:E2.
    2:{ apply make_chan_none in E2. lia. }
    apply make_chan_some in E2 as [? ->].
    destruct (make_chan (A:=indexedResult) _ _) as [c3|] eqn:E3.
    2:{ apply make_chan_none in E3. lia. }
    apply make_chan_some in E3 as [? ->].
    unfold accepts. simpl. repeat split; try done; lia.
Qed.

(** C8.  [output] is closed when, and only when, the collector has returned,
    whichever way it returned; no channel is ever closed twice (the process
    would die of it); once closed [output] stays closed; and the pipeline,
    whose executions are all finite, cannot come to rest, after a
    cancellation or on an input that is closed, without [output] being
    closed. *)
Theorem output_closed_exactly_once cancelled items closes opt (s : State) :
  Z.of_nat (length items) ≤ int_max →
  reachable cancelled items closes opt s →
  chan_closed (output s) = is_CDone (coll s) ∧
  crashed s ≠ Some CrashChannel ∧
  (∀ l s', step (normalize opt) l s = Some s' →
     is_CDone (coll s) = false → is_CDone (coll s') = true →
     chan_closed (output s) = false ∧ chan_closed (output s') = true ∧
     (l = CollNext ∧ coll s' = CDone ExitDrained ∨
      l = CollEmit ∧ coll s' = CDone ExitEarlyStop ∨
      l = CollCtxDone ∧ coll s' = CDone ExitCancelled)) ∧
  (∀ ls s', run (normalize opt) ls s = Some s' →
     chan_closed (output s) = true →
     chan_closed (output s') = true ∧ coll s' = coll s) ∧
  (crashed s = None → quiescent (normalize opt) s →
   ctxDone s = true ∨ closes = true →
     chan_closed (output s) = true) ∧
  (∀ ls s', run (normalize opt) ls s = Some s' → (length ls ≤ potential s)%nat).
Proof.
  intros Hfit Hreach.
  destruct (reachable_safe _ _ _ _ _ _ _ _ Hfit Hreach) as [Hs Hl].
  pose proof (normalize_pool opt) as Hpool.
  pose proof (safe_output_closed _ _ _ _ _ Hs) as Hclosed.
  split; [done|]. split; [|split; [|split; [|split]]].
  - intros Hc. by destruct (safe_crash _ _ _ _ _ Hs _ Hc) as (_ & ? & ? & ? & _ & _ & ?).
  - intros l s' Hstep Hopen Hdone.
    assert (Hs' : safe zeroR fn items (normalize opt) s').
    { eapply step_safe; eauto. }
    pose proof (safe_output_closed _ _ _ _ _ Hs') as Hclosed'.
    split; [congruence|]. split; [congruence|].
    clear Hclosed Hclosed' Hs Hs' Hl.
    step_cases Hstep l; simpl in *; try congruence; auto.
    all: by rewrite Hpc in Hdone.
  - intros ls s' Hrun Hcl. rewrite Hclosed in Hcl.
    destruct (returned_run _ _ _ _ Hcl Hrun) as (E1 & _ & E3).
    split; [|done]. rewrite E3. congruence.
  - intros Hcrash Hq Hend.
    pose proof (reachable_inputCloses _ _ _ _ _ _ _ _ Hreach) as Hic.
    destruct (quiescent_done zeroR fn items (normalize opt) Hpool s Hs Hcrash Hq)
      as [Hdone _]; [|congruence].
    destruct Hend; [by left|right; congruence].
  - intros ls s' Hrun. apply run_potential in Hrun. lia.
Qed.

(** C9.  Whatever the recovered value, [Error()] of the [PanicError] that
    wraps it is the fixed text, which does not show the value, and the
    value itself is kept as it is in the field [Panic]; this is the error
    the worker stores when it converts a panic. *)
Theorem panic_error_message (p : Any) (opt : Options) (v : T) :
  Error (mkPanicError p) = "panic occurred" ∧
  Panic (mkPanicError p) = p ∧
  (PanicAsError opt = true → fn (taskCtx opt) v = Panics p →
     ∃ e, invoke opt v = inl (mkResult zeroR (Some (ErrPanic e))) ∧
          Panic e = p ∧ Error e = "panic occurred").
Proof.
  split; [done|]. split; [done|]. intros Hp Hfn.
  exists (mkPanicError p). unfold_invoke. by rewrite Hfn, Hp.
Qed.

(** C10.  The collector takes the result for [nextIndex] out of the
    reorder buffer before it tries to send it.  If [ctx] is cancelled while
    the send is blocked on a full [output], the only step left to the
    collector is to return: the result it holds is in neither the buffer
    nor [output], nothing is ever sent again, so that result is never
    emitted, and [output] is closed. *)
Theorem cancelled_send_drops_result cancelled items closes opt (s : State) item :
  Z.of_nat (length items) ≤ int_max →
  reachable cancelled items closes opt s →
  crashed s = None →
  coll s = CSelect item →
  ctxDone s = true →
  chan_has_room (output s) = false →
  buffer s !! nextIndex s = None ∧
  nextIndex s = Z.of_nat (length (emitted s)) ∧
  step (normalize opt) CollEmit s = None ∧
  ∃ s', step (normalize opt) CollCtxDone s = Some s' ∧
        coll s' = CDone ExitCancelled ∧
        chan_closed (output s') = true ∧
        buffer s' = buffer s ∧
        ∀ ls s'', run (normalize opt) ls s' = Some s'' →
          emitted s'' = emitted s ∧ chan_closed (output s'') = true.
Proof.
  intros Hfit Hreach Hcrash Hpc Hctx Hfull.
  destruct (reachable_safe _ _ _ _ _ _ _ _ Hfit Hreach) as [Hs Hl].
  destruct (safe_item _ _ _ _ _ Hs _ Hpc) as [_ Hgone].
  pose proof (safe_next _ _ _ _ _ Hs) as Hnext. rewrite Hpc in Hnext.
  pose proof (safe_output_closed _ _ _ _ _ Hs) as Hclosed. rewrite Hpc in Hclosed.
  split; [done|]. split; [unfold emitted; rewrite length_map; lia|]. split.
  - unfold_step; unfold collector, chan_send.
    rewrite Hcrash, Hpc, Hclosed, Hfull. done.
  - unfold_step; unfold collector, collector_return, chan_close.
    rewrite Hcrash, Hpc, Hctx, Hclosed. simpl.
    eexists. split; [done|]. simpl. repeat split; try done.
    + unfold emitted.
      match goal with H : run _ _ ?s1 = Some _ |- _ =>
        destruct (returned_run _ _ s1 _ eq_refl H) as (_ & -> & _) end.
      done.
    + match goal with H : run _ _ ?s1 = Some _ |- _ =>
        destruct (returned_run _ _ s1 _ eq_refl H) as (_ & _ & ->) end.
      done.
Qed.

End Claims.

(** * The claims on concrete runs *)

Module Runs.

Import Examples.

Local Abbreviation reachable := (reachable limits 0).
Local Abbreviation quiescent := (quiescent 0).
Local Abbreviation sequential := (sequential 0).

Ltac fits := vm_compute; discriminate.
Ltac calc := vm_compute; first [reflexivity | discriminate | by intros [=] | done].
Ltac reached ls := exists ls; vm_compute; reflexivity.

(** No step but [Cancel] can be taken from a concrete state with at most two
    workers. *)
Ltac rests :=
  let w := fresh "w" in
  let Hl := fresh "Hl" in
  intros [| | | | |w|w|w|w| | | | |] Hl;
  first [ vm_compute; reflexivity
        | destruct w as [|[|w]]; vm_compute; reflexivity
        | by destruct Hl ].

(** C1 on a run: two items and two workers, the second item finished
    first. *)
Lemma emitted_in_index_order_run :
  let s := after double two_workers [1; 2] overtaking in
  reachable double false [1; 2] true two_workers s ∧
  map res_index (sent s) = [0; 1] ∧
  emitted s = [mkResult 2 None; mkResult 4 None].
Proof.
  intros s.
  assert (Hreach : reachable double false [1; 2] true two_workers s)
    by reached overtaking.
  split; [done|].
  destruct (emitted_in_index_order limits 0 double false [1; 2] true two_workers s
              ltac:(fits) Hreach) as (Hidx & _ & _ & Hout).
  split; [exact Hidx|exact Hout].
Defined.

(** C2 as stated fails: early stop after one success on [1; 2; 4], where
    the item 1 fails:
    one success is asked for and available, the pipeline has come to rest
    with [output] closed, and two results have been sent, not one. *)
Lemma early_stop_sends_failures_too :
  let opt := one_worker 1 false in
  let s := after odd_fails opt [1; 2; 4] stop_at_first_success in
  reachable odd_fails false [1; 2; 4] true opt s ∧
  0 < EarlyStopN opt ≤ successes (sequential odd_fails (normalize opt) [1; 2; 4]) ∧
  ctxDone s = false ∧ crashed s = None ∧ quiescent odd_fails (normalize opt) s ∧
  chan_closed (output s) = true ∧
  received s = [mkResult 0 (Some (ErrOther "odd")); mkResult 4 None] ∧
  Z.of_nat (length (emitted s)) ≠ EarlyStopN opt.
Proof.
  intros opt s. split; [reached stop_at_first_success|].
  split; [calc|]. split; [calc|]. split; [calc|].
  split; [rests|]. split; [calc|]. split; [calc|]. calc.
Defined.

(** C2, amended, on the same run: the failure and the first success are
    delivered, the second success is not. *)
Lemma early_stop_after_K_successes_run :
  let opt := one_worker 1 false in
  let s := after odd_fails opt [1; 2; 4] stop_at_first_success in
  coll s = CDone ExitEarlyStop ∧ chan_closed (output s) = true ∧
  received s = [mkResult 0 (Some (ErrOther "odd")); mkResult 4 None].
Proof.
  intros opt s.
  destruct (early_stop_after_K_successes limits 0 odd_fails false [1; 2; 4] true opt s
              [mkResult 0 (Some (ErrOther "odd")); mkResult 4 None; mkResult 8 None])
    as (_ & _ & _ & _ & Hrest & _).
  - fits.
  - calc.
  - calc.
  - calc.
  - reached stop_at_first_success.
  - apply Hrest; [calc|rests].
Defined.

(** C3 does not hold of the code.  The early-stop test of the repository
    (five items, two workers, stop after two successes): after the stop [ctx] is still live, worker 0 holds
    the fifth result in front of a full [resultChan], and no step of any
    goroutine or of the caller, short of a cancellation, lets it go. *)
Lemma early_stop_strands_worker :
  let s := after double early_stop_test [1; 2; 3; 4; 5] stop_after_two in
  let held := WSend (mkIndexed 4 (mkResult 10 None)) in
  reachable double false [1; 2; 3; 4; 5] true early_stop_test s ∧
  coll s = CDone ExitEarlyStop ∧
  received s = [mkResult 2 None; mkResult 4 None] ∧
  ctxDone s = false ∧
  quiescent double (normalize early_stop_test) s ∧
  workers s !! 0%nat = Some held ∧
  waiting s = true ∧
  ∀ ls s', Cancel ∉ ls →
    run 0 double (normalize early_stop_test) ls s = Some s' →
    workers s' !! 0%nat = Some held.
Proof.
  intros s held. split; [reached stop_after_two|].
  split; [calc|]. split; [calc|]. split; [calc|]. split; [rests|].
  split; [calc|]. split; [calc|].
  intros ls s' Hls Hrun.
  eapply (stranded_run 0 double _ ls s s' 0%nat);
    [reflexivity|reflexivity|reflexivity|reflexivity|exact Hls|exact Hrun].
Qed.

(** C4 on a run: a transform that panics, with [PanicAsError]. *)
Lemma panic_captured_or_propagated_run :
  let opt := one_worker 0 true in
  let s := after boom opt [7] (pass 0 ++ shutdown 1) in
  crashed s = None ∧
  received s !! 0%nat = Some (mkResult 0 (Some (ErrPanic (mkPanicError "boom")))) ∧
  chan_closed (output s) = true.
Proof.
  intros opt s.
  destruct (panic_captured_or_propagated limits 0 boom false [7] true opt s 0%nat 7 "boom")
    as [Hyes _].
  - fits.
  - reached (pass 0 ++ shutdown 1).
  - calc.
  - calc.
  - destruct (Hyes eq_refl) as (_ & Hcrash & _ & Hrest).
    split; [exact Hcrash|]. apply Hrest; [calc|calc|calc|rests].
Defined.

(** C5 on a run: three items through a single worker. *)
Lemma single_worker_sequential_run :
  let opt := one_worker 0 false in
  let s := after double opt [1; 2; 3] (pass 0 ++ pass 0 ++ pass 0 ++ shutdown 1) in
  received s = [mkResult 2 None; mkResult 4 None; mkResult 6 None] ∧
  chan_closed (output s) = true.
Proof.
  intros opt s.
  destruct (single_worker_sequential limits 0 double false [1; 2; 3] true opt s
              [mkResult 2 None; mkResult 4 None; mkResult 6 None])
    as (_ & _ & Hrest & _).
  - fits.
  - calc.
  - calc.
  - calc.
  - reached (pass 0 ++ pass 0 ++ pass 0 ++ shutdown 1).
  - calc.
  - destruct Hrest as [Hrcv Hcl]; [rests|]. split; [exact Hrcv|by apply Hcl].
Defined.

(** C6 as stated fails: [MaxInFlight] 0, below [Workers] 2^62, is raised
    to 2^62 by the normalisation, and [MapOrdered] panics at its first
    [make]; no pipeline is launched. *)
Lemma huge_pool_panics_at_make :
  let opt := mkOptions (2 ^ 62) 0 0 false 0 in
  MaxInFlight opt < Workers opt ∧
  MaxInFlight (normalize opt) = 2 ^ 62 ∧
  MapOrdered limits false [1; 2] true opt =
    (MakePanics MakeOutput : @Launch Z Z string string) ∧
  ∀ s, ¬ reachable double false [1; 2] true opt s.
Proof.
  intros opt. split; [calc|]. split; [calc|]. split; [calc|].
  intros s [ls Hrun]. vm_compute in Hrun. discriminate.
Defined.

(** C7 on a run: the first of two items fails. *)
Lemma error_stays_in_its_slot_run :
  let opt := one_worker 0 false in
  let s := after odd_fails opt [1; 2] (pass 0 ++ pass 0 ++ shutdown 1) in
  received s !! 0%nat = Some (mkResult 0 (Some (ErrOther "odd"))) ∧
  length (received s) = 2%nat.
Proof.
  intros opt s.
  destruct (error_stays_in_its_slot limits 0 odd_fails false [1; 2] true opt s
              0%nat 1 0 (ErrOther "odd")) as (_ & _ & _ & Hrest).
  - fits.
  - reached (pass 0 ++ pass 0 ++ shutdown 1).
  - calc.
  - calc.
  - apply Hrest; [calc|calc|calc|calc|rests].
Defined.

(** C8 on a run to completion. *)
Lemma output_closed_exactly_once_run :
  let opt := one_worker 0 false in
  let s := after double opt [1; 2; 3] (pass 0 ++ pass 0 ++ pass 0 ++ shutdown 1) in
  chan_closed (output s) = is_CDone (coll s) ∧ crashed s ≠ Some CrashChannel ∧
  chan_closed (output s) = true.
Proof.
  intros opt s.
  destruct (output_closed_exactly_once limits 0 double false [1; 2; 3] true opt s)
    as (Hiff & Honce & _ & _ & Hrest & _).
  - fits.
  - reached (pass 0 ++ pass 0 ++ pass 0 ++ shutdown 1).
  - split; [exact Hiff|]. split; [exact Honce|].
    apply Hrest; [calc|rests|right; calc].
Defined.

(** C9 on the panic value ["boom"]. *)
Lemma panic_error_message_run :
  ∃ e, invoke 0 boom (one_worker 0 true) 7 = inl (mkResult 0 (Some (ErrPanic e))) ∧
       Panic e = "boom" ∧ Error e = "panic occurred".
Proof.
  destruct (panic_error_message 0 boom "boom" (one_worker 0 true) 7)
    as (_ & _ & Hwrap).
  apply Hwrap; calc.
Defined.

(** C10 on a run: the second of two results is held by the collector in
    front of a full [output] when [ctx] is cancelled. *)
Lemma cancelled_send_drops_result_run :
  let opt := one_worker 0 false in
  let s := after double opt [1; 2] cancel_blocked_send in
  coll s = CSelect (mkResult 4 None) ∧
  buffer s !! nextIndex s = None ∧
  emitted s = [mkResult 2 None] ∧
  ∃ s', step 0 double (normalize opt) CollCtxDone s = Some s' ∧
        coll s' = CDone ExitCancelled ∧
        chan_closed (output s') = true ∧
        buffer s' = buffer s ∧
        ∀ ls s'', run 0 double (normalize opt) ls s' = Some s'' →
          emitted s'' = emitted s ∧ chan_closed (output s'') = true.
Proof.
  intros opt s.
  destruct (cancelled_send_drops_result limits 0 double false [1; 2] true opt s
              (mkResult 4 None)) as (Hgone & _ & _ & Hret).
  - fits.
  - reached cancel_blocked_send.
  - calc.
  - calc.
  - calc.
  - calc.
  - split; [calc|]. split; [exact Hgone|]. split; [calc|]. exact Hret.
Defined.

End Runs.

(** * An index is in one place at a time *)

Section CountFacts.

Context {A : Type}.
Implicit Types (p : A → bool) (l : list A).

Lemma count_nil p : count p [] = 0%nat.
Proof. done. Qed.

Lemma count_cons p x l :
  count p (x :: l) = ((if p x then 1 else 0) + count p l)%nat.
Proof. unfold count. simpl. by destruct (p x). Qed.

Lemma count_app p l k : count p (l ++ k) = (count p l + count p k)%nat.
Proof. unfold count. by rewrite List.filter_app, length_app. Qed.

Lemma count_insert p l w old new :
  l !! w = Some old →
  (count p (<[w:=new]> l) + (if p old then 1 else 0) =
   count p l + (if p new then 1 else 0))%nat.
Proof.
  revert w. induction l as [|x l IH]; intros [|w] Hw; simpl in *; try done.
  - injection Hw as ->. rewrite !count_cons. lia.
  - rewrite !count_cons. specialize (IH w Hw). lia.
Qed.

Lemma count_none p l : Forall (λ x, p x = false) l → count p l = 0%nat.
Proof.
  induction 1 as [|x l Hx _ IH]; [done|]. by rewrite count_cons, Hx, IH.
Qed.

Lemma count_present p l n x :
  l !! n = Some x → p x = true → (1 ≤ count p l)%nat.
Proof.
  revert n. induction l as [|y l IH]; intros [|n] Hn Hp; simpl in *; try done.
  - injection Hn as ->. rewrite count_cons, Hp. lia.
  - rewrite count_cons. specialize (IH n Hn Hp). lia.
Qed.

End CountFacts.

Section Unique.

Context {T R E Any : Type}.
Variable zeroR : R.
Variable fn : TaskContext → T → @Outcome R E Any.
Variable items : list T.
Variable opt : Options.

Hypothesis items_fit : Z.of_nat (length items) ≤ int_max.
Hypothesis pool_size : 1 ≤ Workers opt ≤ MaxInFlight opt.

Local Abbreviation State := (@State T R E Any).
Local Abbreviation safe := (safe zeroR fn items opt).

(** No index from [index s] on is anywhere yet. *)
Lemma occurrences_beyond (s : State) i :
  safe s → index s ≤ i → occurrences s i = 0%nat.
Proof.
  intros Hs Hi. unfold occurrences.
  rewrite (count_none _ (chan_buf (taskChan s))).
  2:{ eapply Forall_impl; [apply Hs|]. intros t [Ht _]. simpl. lia. }
  rewrite (count_none _ (workers s)).
  2:{ eapply Forall_impl; [apply (safe_workers _ _ _ _ _ Hs)|].
      intros [| t | r |]; simpl; try done.
      - intros [Ht _]. lia.
      - intros [Hr _]. lia. }
  rewrite (count_none _ (chan_buf (resultChan s))).
  2:{ eapply Forall_impl; [apply (safe_results _ _ _ _ _ Hs)|].
      intros r [Hr _]. simpl. lia. }
  rewrite (count_none _ (sent s)).
  2:{ apply Forall_lookup. intros n r Hn.
      destruct (safe_sent _ _ _ _ _ Hs n r Hn) as [_ [Hr _]]. simpl. lia. }
  destruct (buffer s !! i) as [r|] eqn:Hb.
  { destruct (safe_buffer _ _ _ _ _ Hs i r Hb) as [Hr _]. simpl in Hr. lia. }
  destruct (coll s) as [| |item|] eqn:Hpc; try done.
  destruct (safe_item _ _ _ _ _ Hs item Hpc) as [[Hr _] _]. simpl in Hr.
  destruct (Z.eqb_spec (nextIndex s) i); [lia|done].
Qed.

Lemma step_occurrences l (s s' : State) :
  safe s → (∀ i, (occurrences s i ≤ 1)%nat) →
  step zeroR fn opt l s = Some s' →
  ∀ i, (occurrences s' i ≤ 1)%nat.
Proof.
  intros Hs Hocc Hstep i.
  pose proof (Hocc i) as Hi. pose proof (occurrences_beyond s i Hs) as Hnew.
  pose proof (safe_index _ _ _ _ _ Hs) as Hidx. clear Hocc.
  step_cases Hstep l; unfold occurrences in *; simpl in *;
    repeat match goal with
    | H : chan_close _ = Some _ |- _ => apply chan_close_some in H as [? ->]
    | H : chan_send _ _ = SendOk _ |- _ => apply chan_send_ok in H as (? & ? & ->)
    | H : chan_recv ?c = RecvOk _ _ |- _ =>
        let Hb := fresh "Hb" in
        apply chan_recv_ok in H as (Hb & ? & ?); rewrite Hb in *
    end; simpl in *; rewrite ?count_app, ?count_cons, ?count_nil in *;
    try match goal with
    | Hw : workers s !! ?w = Some ?old
      |- context [count ?p (<[?w:=?new]> (workers s))] =>
        pose proof (count_insert p _ w old new Hw); simpl in *
    end;
    repeat match goal with
    | |- context [Z.eqb ?a i] =>
        destruct (Z.eqb_spec a i) as [?Heq|?Hne]; [try rewrite Heq in *|]
    | H : context [Z.eqb ?a i] |- _ =>
        destruct (Z.eqb_spec a i) as [?Heq|?Hne]; [try rewrite Heq in *|]
    end;
    rewrite ?lookup_insert, ?lookup_delete;
    repeat (case_decide || case_match); simpl in *; try congruence; lia.
Qed.

Lemma run_occurrences ls (s s' : State) :
  safe s → (∀ i, (occurrences s i ≤ 1)%nat) →
  run zeroR fn opt ls s = Some s' →
  ∀ i, (occurrences s' i ≤ 1)%nat.
Proof.
  revert s. induction ls as [|l ls IH]; intros s Hs Hocc Hrun; simpl in Hrun.
  - by injection Hrun as <-.
  - destruct (step zeroR fn opt l s) as [s1|] eqn:Hstep; [|done].
    apply (IH s1); [|eauto using step_occurrences|done].
    eapply step_safe; eauto.
Qed.

Lemma start_occurrences cancelled closes i :
  (occurrences (started (R:=R) (E:=E) (Any:=Any) cancelled items closes opt) i ≤ 1)%nat.
Proof.
  unfold occurrences, started, start. simpl.
  rewrite (count_none _ (replicate _ _)), lookup_empty, !count_nil; [lia|].
  apply Forall_forall. by intros pc [-> _]%elem_of_replicate.
Qed.

End Unique.

(** * Further properties of the pipeline *)

Section Extras.

Variable lim : Limits.
Context {T R E Any : Type}.
Variable zeroR : R.
Variable fn : TaskContext → T → @Outcome R E Any.

Local Abbreviation State := (@State T R E Any).
Local Abbreviation reachable := (reachable lim zeroR fn).
Local Abbreviation step := (step zeroR fn).
Local Abbreviation run := (run zeroR fn).
Local Abbreviation invoke := (invoke zeroR fn).
Local Abbreviation sequential := (sequential zeroR fn).
Local Abbreviation quiescent := (quiescent zeroR fn).
Local Abbreviation run_from := (run_from zeroR fn).
Local Abbreviation MapOrdered := (@MapOrdered lim T R E Any).

Ltac blocked Hq L H :=
  pose proof (Hq L ltac:(done)) as H; unfold_step_in H;
  match goal with Hc : crashed _ = None |- _ => rewrite Hc in H end;
  simpl in H.

(** X1.  Whatever the options, the number of workers, an early stop or a
    cancellation: what the caller has read from [output] is at every moment
    a prefix of what is sent, there is at most one result sent per item,
    and the [n]-th result sent is the one of the [n]-th item: the value and
    the error that the transform returned for it or, if the transform
    panicked on it, [PanicAsError] being set, the zero value with the
    [*PanicError] that holds the panic value. *)
Theorem results_are_of_the_transform cancelled items closes opt (s : State) :
  Z.of_nat (length items) ≤ int_max →
  reachable cancelled items closes opt s →
  received s `prefix_of` emitted s ∧
  (length (emitted s) ≤ length items)%nat ∧
  ∀ n r, emitted s !! n = Some r →
    ∃ v, items !! n = Some v ∧
      match fn (taskCtx opt) v with
      | Returns res err => r = mkResult res err
      | Panics p =>
          PanicAsError opt = true ∧
          r = mkResult zeroR (Some (ErrPanic (mkPanicError p)))
      end.
Proof.
  intros Hfit Hreach.
  destruct (reachable_safe _ _ _ _ _ _ _ _ Hfit Hreach) as [Hs _].
  destruct (normalize_rest opt) as (_ & Hp & _).
  split; [|split].
  - rewrite (safe_output _ _ _ _ _ Hs). by apply prefix_app_r.
  - pose proof (sent_length _ _ _ _ _ Hs) as Hle.
    pose proof (safe_index _ _ _ _ _ Hs) as Hidx.
    unfold emitted. rewrite length_map. lia.
  - intros n r Hn.
    destruct (emitted_lookup _ _ _ _ _ _ _ Hs Hn) as (v & Hv & Hinv).
    exists v. split; [done|]. revert Hinv. unfold_invoke.
    rewrite taskCtx_normalize, Hp.
    destruct (fn (taskCtx opt) v) as [res err|p]; [by intros [= <-]|].
    destruct (PanicAsError opt); [by intros [= <-]|done].
Qed.

(** X2.  For any number of workers: without cancellation, early stop or
    crash, on an input that is closed, the pipeline comes to rest only when
    the caller has received the result of every item, in arrival order, and
    every goroutine has returned, leaving the three channels closed and
    empty. *)
Theorem completion_leaves_nothing_behind cancelled items closes opt (s : State) :
  Z.of_nat (length items) ≤ int_max →
  EarlyStopN opt ≤ 0 →
  reachable cancelled items closes opt s →
  ctxDone s = false → closes = true → crashed s = None →
  quiescent (normalize opt) s →
  received s = sequential (normalize opt) items ∧
  length (received s) = length items ∧
  sub s = SubDone ∧
  Forall (λ pc, pc = WDone) (workers s) ∧
  waiting s = false ∧
  coll s = CDone ExitDrained ∧
  taskChan s = Chan [] (MaxInFlight (normalize opt)) true ∧
  resultChan s = Chan [] (MaxInFlight (normalize opt)) true ∧
  output s = Chan [] (MaxInFlight (normalize opt)) true.
Proof.
  intros Hfit HK Hreach Hctx Hcloses Hcrash Hq.
  destruct (reachable_safe _ _ _ _ _ _ _ _ Hfit Hreach) as [Hs Hl].
  destruct (normalize_rest opt) as (HKn & _ & _).
  destruct (at_rest _ _ _ _ _ _ _ _ Hfit Hreach Hctx Hcloses Hcrash Hq)
    as (Hrcv & Hcl & [Hes|(Hpc & Hseq & Hlen)]).
  { pose proof (safe_early _ _ _ _ _ Hs Hes). lia. }
  destruct (ll_drained _ _ Hl Hpc) as [Hwait Hrbuf].
  pose proof (safe_waited _ _ _ _ _ Hs Hwait) as Hall.
  assert (Hw0 : workers s !! 0%nat = Some WDone).
  { pose proof (safe_pool _ _ _ _ _ Hs) as Hn.
    pose proof (normalize_pool opt) as Hpool.
    destruct (workers s) as [|pc ws] eqn:Hws; simpl in *; [lia|].
    apply Forall_cons in Hall as [-> _]. done. }
  destruct (ll_worker_done _ _ Hl Hctx _ Hw0) as [Hsub Htbuf].
  pose proof (safe_caps _ _ _ _ _ Hs) as (Hc1 & Hc2 & Hc3).
  pose proof (safe_taskChan_closed _ _ _ _ _ Hs) as Htcl. rewrite Hsub in Htcl.
  pose proof (safe_resultChan_closed _ _ _ _ _ Hs) as Hrcl. rewrite Hwait in Hrcl.
  pose proof (safe_output _ _ _ _ _ Hs) as Hout. rewrite <- Hrcv in Hout.
  assert (Hobuf : chan_buf (output s) = []).
  { apply (f_equal length) in Hout. rewrite length_app in Hout.
    destruct (chan_buf (output s)); [done|]. simpl in Hout. lia. }
  repeat split; try congruence.
  - destruct (taskChan s); simpl in *; congruence.
  - destruct (resultChan s); simpl in *; congruence.
  - destruct (output s); simpl in *; congruence.
Qed.

(** X3.  After a cancellation the pipeline comes to rest only when every
    worker, the goroutine at [wg.Wait()] and the collector have returned
    and [resultChan] and [output] are closed.  The submitter has returned
    too, unless it waits at [range input] for an input that is empty and
    not closed: that receive does not watch [ctx]. *)
Theorem cancellation_releases_the_pool cancelled items closes opt (s : State) :
  Z.of_nat (length items) ≤ int_max →
  reachable cancelled items closes opt s →
  crashed s = None → ctxDone s = true →
  quiescent (normalize opt) s →
  Forall (λ pc, pc = WDone) (workers s) ∧
  waiting s = false ∧
  chan_closed (resultChan s) = true ∧
  is_CDone (coll s) = true ∧
  chan_closed (output s) = true ∧
  (sub s = SubDone ∧ chan_closed (taskChan s) = true ∨
   sub s = SubRange ∧ input s = [] ∧ closes = false ∧
   chan_closed (taskChan s) = false).
Proof.
  intros Hfit Hreach Hcrash Hctx Hq.
  destruct (reachable_safe _ _ _ _ _ _ _ _ Hfit Hreach) as [Hs Hl].
  pose proof (normalize_pool opt) as Hpool.
  pose proof (reachable_inputCloses _ _ _ _ _ _ _ _ Hreach) as Hic.
  assert (Hall : Forall (λ pc, pc = WDone) (workers s)).
  { apply Forall_lookup. intros w pc Hw. destruct pc; [| | |done]; exfalso.
    - blocked Hq (WorkerCtxDone w) H. unfold worker in H. by rewrite Hw, Hctx in H.
    - blocked Hq (WorkerCall w) H. unfold worker in H. rewrite Hw in H.
      by destruct (invoke _ _).
    - blocked Hq (WorkerCtxDone w) H. unfold worker in H. by rewrite Hw, Hctx in H. }
  assert (Hwait : waiting s = false).
  { destruct (waiting s) eqn:Hwait; [exfalso|done].
    blocked Hq (@WaitClose) H. unfold waiter in H. rewrite Hwait in H.
    assert (Hf : forallb is_WDone (workers s) = true).
    { apply Is_true_true, forallb_True. eapply Forall_impl; [done|].
      by intros pc ->. }
    rewrite Hf in H. simpl in H. by destruct (chan_close (resultChan s)). }
  destruct (quiescent_done zeroR fn items (normalize opt) Hpool s Hs Hcrash Hq)
    as [Hdone _]; [by left|].
  split; [done|]. split; [done|]. split.
  { by rewrite (safe_resultChan_closed _ _ _ _ _ Hs), Hwait. }
  split; [done|]. split.
  { by rewrite (safe_output_closed _ _ _ _ _ Hs). }
  pose proof (safe_taskChan_closed _ _ _ _ _ Hs) as Htcl.
  destruct (sub s) eqn:Hsub; simpl in Htcl.
  - right. blocked Hq (@SubNext) H. unfold submitter in H. rewrite Hsub in H.
    destruct (input s); [|done]. destruct (inputCloses s) eqn:Hcl; [done|].
    repeat split; congruence.
  - exfalso. blocked Hq (@SubCtxDone) H. unfold submitter in H.
    by rewrite Hsub, Hctx in H.
  - by left.
Qed.

(** X4.  Backpressure: none of [taskChan], [resultChan] and [output] ever
    holds more than [MaxInFlight] elements, the pool has exactly [Workers]
    workers (both after normalisation), so that at most [Workers] calls of
    the transform are in progress at any time. *)
Theorem queues_and_pool_are_bounded cancelled items closes opt (s : State) :
  Z.of_nat (length items) ≤ int_max →
  reachable cancelled items closes opt s →
  Z.of_nat (length (chan_buf (taskChan s))) ≤ MaxInFlight (normalize opt) ∧
  Z.of_nat (length (chan_buf (resultChan s))) ≤ MaxInFlight (normalize opt) ∧
  Z.of_nat (length (chan_buf (output s))) ≤ MaxInFlight (normalize opt) ∧
  Z.of_nat (length (workers s)) = Workers (normalize opt) ∧
  Z.of_nat (count calling (workers s)) ≤ Workers (normalize opt).
Proof.
  intros Hfit Hreach.
  destruct (reachable_safe _ _ _ _ _ _ _ _ Hfit Hreach) as [Hs _].
  pose proof (normalize_pool opt) as Hpool.
  pose proof (safe_lens _ _ _ _ _ Hs) as (H1 & H2 & H3).
  pose proof (safe_pool _ _ _ _ _ Hs) as Hn.
  pose proof (List.filter_length_le calling (workers s)) as Hle.
  unfold count. repeat split; lia.
Qed.

Lemma normalize_valid (opt : Options) :
  1 ≤ Workers opt ≤ MaxInFlight opt → normalize opt = opt.
Proof.
  destruct opt as [w m k p t]. unfold normalize. simpl. intros Hv.
  destruct (Z.leb_spec w 0); [lia|]. simpl.
  destruct (Z.ltb_spec m w); [lia|done].
Qed.

(** X5.  Normalising options twice is normalising them once, and the
    options that normalisation leaves as they are are exactly those with
    [1 ≤ Workers ≤ MaxInFlight]. *)
Theorem normalize_is_idempotent (opt : Options) :
  normalize (normalize opt) = normalize opt ∧
  (normalize opt = opt ↔ 1 ≤ Workers opt ≤ MaxInFlight opt).
Proof.
  pose proof (normalize_pool opt) as Hpool. split.
  - by apply normalize_valid.
  - split; [intros <-; done|apply normalize_valid].
Qed.

(** X6.  [EarlyStopN ≤ 0], negative values included, switches early stop
    off: the collector leaves its loop only because [resultChan] is closed
    and drained, or because [ctx] is cancelled. *)
Theorem nonpositive_quota_never_stops cancelled items closes opt (s : State) :
  Z.of_nat (length items) ≤ int_max →
  EarlyStopN opt ≤ 0 →
  reachable cancelled items closes opt s →
  coll s ≠ CDone ExitEarlyStop ∧
  (is_CDone (coll s) = true →
     coll s = CDone ExitDrained ∨
     coll s = CDone ExitCancelled ∧ ctxDone s = true).
Proof.
  intros Hfit HK Hreach.
  destruct (reachable_safe _ _ _ _ _ _ _ _ Hfit Hreach) as [Hs _].
  destruct (normalize_rest opt) as (HKn & _ & _).
  assert (Hno : coll s ≠ CDone ExitEarlyStop).
  { intros Hpc. pose proof (safe_early _ _ _ _ _ Hs Hpc). lia. }
  split; [done|]. intros Hdone.
  destruct (coll s) as [| | |[]] eqn:Hpc; try done; [by left|].
  right. split; [done|]. by apply (safe_cancelled _ _ _ _ _ Hs).
Qed.

(** X7.  The pipeline never makes up work: the submitter has numbered at
    most as many tasks as there are items, and no more results are sent on
    [output] than tasks were numbered.  On an empty input nothing is ever
    sent. *)
Theorem never_more_results_than_items cancelled items closes opt (s : State) :
  Z.of_nat (length items) ≤ int_max →
  reachable cancelled items closes opt s →
  0 ≤ index s ≤ Z.of_nat (length items) ∧
  Z.of_nat (length (emitted s)) ≤ index s ∧
  (items = [] → emitted s = []).
Proof.
  intros Hfit Hreach.
  destruct (reachable_safe _ _ _ _ _ _ _ _ Hfit Hreach) as [Hs _].
  pose proof (safe_index _ _ _ _ _ Hs) as Hidx.
  pose proof (normalize_pool opt) as Hpool.
  assert (Hlen : Z.of_nat (length (emitted s)) ≤ index s).
  { unfold emitted. rewrite length_map. eapply sent_length; eauto. }
  split; [done|]. split; [done|]. intros ->. simpl in *.
  destruct (emitted s); [done|]. simpl in *. lia.
Qed.

(** X8.  Tasks are numbered in arrival order: while the submitter runs,
    the items it has not yet sent are the input from position [index] on,
    and every task, in [taskChan] or in the hands of a worker, carries the
    item that arrived at the position that is its index. *)
Theorem tasks_are_numbered_in_arrival_order cancelled items closes opt (s : State) :
  Z.of_nat (length items) ≤ int_max →
  reachable cancelled items closes opt s →
  (is_SubDone (sub s) = false →
     drop (Z.to_nat (index s)) items = held (sub s) ++ input s) ∧
  (∀ n t, chan_buf (taskChan s) !! n = Some t →
     0 ≤ task_index t < index s ∧
     items !! Z.to_nat (task_index t) = Some (task_value t)) ∧
  (∀ w t, workers s !! w = Some (WCall t) →
     0 ≤ task_index t < index s ∧
     items !! Z.to_nat (task_index t) = Some (task_value t)).
Proof.
  intros Hfit Hreach.
  destruct (reachable_safe _ _ _ _ _ _ _ _ Hfit Hreach) as [Hs _].
  split; [apply Hs|]. split.
  - intros n t Hn.
    apply (Forall_lookup_1 _ _ _ _ (safe_tasks _ _ _ _ _ Hs) Hn).
  - intros w t Hw.
    apply (Forall_lookup_1 _ _ _ _ (safe_workers _ _ _ _ _ Hs) Hw).
Qed.

(** X9.  The process dies of nothing but a [make] that the runtime
    refuses or a panic of the transform that is not converted.  [MapOrdered]
    panics at a [make] only when the runtime does not make channels of the
    normalised [MaxInFlight]; once the pipeline runs, a crashed state means
    that [PanicAsError] is unset and that the transform panics on one of the
    items, with the value the process died of.  No send on, and no close
    of, a closed channel ever happens. *)
Theorem crash_needs_a_panicking_item cancelled items closes opt :
  Z.of_nat (length items) ≤ int_max →
  (∀ site, MapOrdered cancelled items closes opt = MakePanics site →
     ¬ accepts lim (MaxInFlight (normalize opt))) ∧
  (accepts lim (MaxInFlight (normalize opt)) →
     ∃ s0 : State, MapOrdered cancelled items closes opt = Launched s0 ∧
                   crashed s0 = None) ∧
  (∀ (s : State) c, reachable cancelled items closes opt s →
     crashed s = Some c →
     PanicAsError opt = false ∧
     ∃ i v r, items !! i = Some v ∧ fn (taskCtx opt) v = Panics r ∧
              c = CrashPanic r).
Proof.
  intros Hfit. split; [|split].
  - intros site Hl Hacc.
    pose proof (proj2 (MapOrdered_launched lim cancelled items closes opt
                         (started cancelled items closes (normalize opt) : State))
                  (conj Hacc eq_refl)) as Hok.
    congruence.
  - intros Hacc. exists (started cancelled items closes (normalize opt)).
    split; [|reflexivity]. by apply MapOrdered_launched.
  - intros s c Hreach Hc.
    destruct (reachable_safe _ _ _ _ _ _ _ _ Hfit Hreach) as [Hs _].
    destruct (normalize_rest opt) as (_ & Hp & _).
    destruct (safe_crash _ _ _ _ _ Hs c Hc) as (Hpanic & w & t & r & Hw & Hfn & ->).
    split; [congruence|].
    pose proof (Forall_lookup_1 _ _ _ _ (safe_workers _ _ _ _ _ Hs) Hw) as [_ Hitem].
    exists (Z.to_nat (task_index t)), (task_value t), r.
    rewrite <- taskCtx_normalize. done.
Qed.

(** X10.  No livelock: an execution of [MapOrdered] on [n] items has at
    most [10 n + Workers + 5] steps, the caller's included. *)
Theorem executions_are_bounded cancelled (items : list T) closes opt ls (s : State) :
  run_from (normalize opt) ls (MapOrdered cancelled items closes opt) = Some s →
  (length ls ≤ 10 * length items + Z.to_nat (Workers (normalize opt)) + 5)%nat.
Proof.
  intros Hrun. unfold_run_from_in Hrun.
  destruct (MapOrdered cancelled items closes opt) as [s0|] eqn:Hl; [|done].
  apply MapOrdered_launched in Hl as [_ ->].
  apply run_potential in Hrun.
  assert (Hstart : (potential (started (R:=R) (E:=E) (Any:=Any)
                                cancelled items closes (normalize opt))
                    ≤ 10 * length items + Z.to_nat (Workers (normalize opt)) + 5)%nat).
  { unfold potential, started, start. simpl.
    assert (Hsum : ∀ n, sum_list_with (worker_potential (T:=T) (R:=R) (E:=E) (Any:=Any))
                          (replicate n WSelect) = n).
    { induction n as [|n IH]; simpl; [done|]. by rewrite IH. }
    rewrite Hsum, map_size_empty. destruct cancelled; lia. }
  lia.
Qed.

Lemma reachable_occurrences cancelled items closes opt (s : State) i :
  Z.of_nat (length items) ≤ int_max →
  reachable cancelled items closes opt s →
  (occurrences s i ≤ 1)%nat.
Proof.
  intros Hfit [_ [ls Hrun]]%reachable_run. pose proof (normalize_pool opt) as Hpool.
  eapply (run_occurrences zeroR fn items (normalize opt) Hfit Hpool);
    [|intros; apply start_occurrences|exact Hrun].
  by apply start_safe.
Qed.

(** X11.  Each index is in one place at a time: among the tasks in
    [taskChan], the tasks and results in the hands of the workers, the
    results in [resultChan], in the reorder buffer, in the hands of the
    collector and those already sent, an index occurs at most once.  No
    task is duplicated and no result is computed or sent twice. *)
Theorem no_index_in_two_places cancelled items closes opt (s : State) i :
  Z.of_nat (length items) ≤ int_max →
  reachable cancelled items closes opt s →
  (occurrences s i ≤ 1)%nat.
Proof. apply reachable_occurrences. Qed.

(** X12.  The reorder buffer only holds results still to be sent: every
    key is the index of a submitted task that is not below the number of
    results sent; the result the collector is about to receive never
    overwrites an entry of the buffer and never comes for a slot already
    sent; and when the collector returns because [resultChan] is drained,
    without cancellation, the buffer is empty. *)
Theorem buffer_holds_results_to_come cancelled items closes opt (s : State) :
  Z.of_nat (length items) ≤ int_max →
  reachable cancelled items closes opt s →
  (∀ k, is_Some (buffer s !! k) →
     nextIndex s ≤ k ∧ Z.of_nat (length (emitted s)) ≤ k < index s) ∧
  (∀ r rest, chan_buf (resultChan s) = r :: rest →
     buffer s !! res_index r = None ∧
     Z.of_nat (length (emitted s)) ≤ res_index r) ∧
  (coll s = CDone ExitDrained → ctxDone s = false → buffer s = ∅).
Proof.
  intros Hfit Hreach.
  destruct (reachable_safe _ _ _ _ _ _ _ _ Hfit Hreach) as [Hs Hl].
  pose proof (normalize_pool opt) as Hpool.
  pose proof (safe_next _ _ _ _ _ Hs) as Hnext.
  assert (Hsent : ∀ k, 0 ≤ k < Z.of_nat (length (sent s)) →
            (1 ≤ count (λ r, Z.eqb (res_index r) k) (sent s))%nat).
  { intros k Hk. destruct (lookup_lt_is_Some_2 (sent s) (Z.to_nat k)) as [r Hr]; [lia|].
    eapply count_present; [exact Hr|].
    destruct (safe_sent _ _ _ _ _ Hs _ _ Hr) as [-> _]. apply Z.eqb_eq. lia. }
  assert (Hlen : length (emitted s) = length (sent s)).
  { unfold emitted. by rewrite length_map. }
  assert (Hkeys : ∀ k, is_Some (buffer s !! k) →
            nextIndex s ≤ k ∧ Z.of_nat (length (emitted s)) ≤ k < index s).
  { intros k [r Hk].
    destruct (safe_buffer _ _ _ _ _ Hs k r Hk) as [Hrange _]. simpl in Hrange.
    assert (Z.of_nat (length (sent s)) ≤ k).
    { destruct (Z.le_gt_cases (Z.of_nat (length (sent s))) k) as [|Hlt]; [done|].
      pose proof (Hsent k ltac:(lia)) as H1.
      pose proof (reachable_occurrences _ _ _ _ s k Hfit Hreach) as Hocc.
      unfold occurrences in Hocc. rewrite Hk in Hocc. lia. }
    rewrite Hlen. split; [|lia]. destruct (coll s) as [| | |[]]; lia. }
  split; [done|]. split.
  - intros r rest Hbuf.
    pose proof (reachable_occurrences _ _ _ _ s (res_index r) Hfit Hreach) as Hocc.
    unfold occurrences in Hocc. rewrite Hbuf, count_cons, Z.eqb_refl in Hocc.
    pose proof (safe_results _ _ _ _ _ Hs) as Hres. rewrite Hbuf in Hres.
    apply Forall_cons in Hres as [[Hrange _] _].
    split.
    + destruct (buffer s !! res_index r); [lia|done].
    + rewrite Hlen.
      destruct (Z.le_gt_cases (Z.of_nat (length (sent s))) (res_index r))
        as [|Hlt]; [done|].
      pose proof (Hsent (res_index r) ltac:(lia)) as H1. lia.
  - intros Hpc Hctx. apply map_eq. intros k. rewrite lookup_empty.
    destruct (buffer s !! k) as [r|] eqn:Hk; [exfalso|done].
    destruct (Hkeys k) as (_ & Hlo & Hhi); [by eexists|].
    pose proof (drained_complete zeroR fn items (normalize opt) Hpool s Hs Hl Hpc Hctx)
      as Hall.
    pose proof (safe_index _ _ _ _ _ Hs) as Hidx. rewrite Hlen in Hlo. lia.
Qed.

Lemma run_app opt l1 l2 (s : State) :
  run opt (l1 ++ l2) s =
  match run opt l1 s with Some s1 => run opt l2 s1 | None => None end.
Proof.
  revert s. induction l1 as [|l l1 IH]; intros s; simpl; [done|].
  by destruct (step opt l s).
Qed.

Ltac exec Hcap :=
  repeat (cbn -[Z.ltb int_incr Z.add Z.of_nat]; unfold chan_has_room;
          cbn -[Z.ltb int_incr Z.add Z.of_nat];
          change (Z.of_nat 0) with 0; rewrite ?Hcap).

Lemma hold_first_runs opt v inp closes (n : nat) :
  0 < MaxInFlight opt →
  run opt MoreExamples.hold_first
    (mkState false (v :: inp) closes [] SubRange 0 (empty_chan (MaxInFlight opt))
       (WSelect :: WSelect :: replicate n WSelect) true
       (empty_chan (MaxInFlight opt)) CRange ∅ 0 0 (empty_chan (MaxInFlight opt))
       [] None) =
  Some (piled opt v closes (replicate n WSelect) 0 inp ∅).
Proof.
  intros Hcap. apply Z.ltb_lt in Hcap.
  unfold MoreExamples.hold_first, piled, empty_chan. unfold_step.
  exec Hcap. reflexivity.
Qed.

Lemma overtake_runs opt v r inp closes rest (k : nat) b :
  0 < MaxInFlight opt →
  Z.of_nat k + 1 < int_max →
  b !! 0 = None →
  invoke opt v = inl r →
  run opt MoreExamples.overtake (piled opt v closes rest k (v :: inp) b) =
  Some (piled opt v closes rest (S k) inp (<[Z.of_nat k + 1 := r]> b)).
Proof.
  intros Hcap Hk Hb Hinv. apply Z.ltb_lt in Hcap.
  unfold MoreExamples.overtake, piled, empty_chan. unfold_step.
  exec Hcap. rewrite Hinv. exec Hcap.
  rewrite lookup_insert_ne by lia. rewrite Hb. exec Hcap.
  rewrite int_incr_small by lia.
  replace (Z.of_nat (S k) + 1) with (Z.of_nat k + 1 + 1) by lia.
  reflexivity.
Qed.
Lemma pile_grows opt v r closes rest (n : nat) :
  0 < MaxInFlight opt →
  invoke opt v = inl r →
  ∀ (k : nat) inp b,
    Z.of_nat (k + n) + 1 < int_max →
    b !! 0 = None →
    (∀ j, Z.of_nat k < j → b !! j = None) →
    ∃ b', run opt (concat (replicate n MoreExamples.overtake))
            (piled opt v closes rest k (replicate n v ++ inp) b) =
          Some (piled opt v closes rest (k + n) inp b') ∧
          size b' = (size b + n)%nat.
Proof.
  intros Hcap Hinv. induction n as [|n IH]; intros k inp b Hk Hb Hfree.
  - exists b. simpl. rewrite !Nat.add_0_r. done.
  - change (concat (replicate (S n) MoreExamples.overtake))
      with (MoreExamples.overtake ++ concat (replicate n MoreExamples.overtake)).
    change (replicate (S n) v ++ inp) with (v :: (replicate n v ++ inp)).
    rewrite run_app.
    rewrite (overtake_runs opt v r) by (done || lia).
    destruct (IH (S k) inp (<[Z.of_nat k + 1 := r]> b)) as (b' & Hrun & Hsize).
    + lia.
    + rewrite lookup_insert_ne by lia. done.
    + intros j Hj. rewrite lookup_insert_ne by lia. apply Hfree. lia.
    + exists b'. rewrite Hrun. replace (k + S n)%nat with (S k + n)%nat by lia.
      split; [done|]. rewrite Hsize, map_size_insert_None; [lia|].
      apply Hfree. lia.
Qed.

Lemma normalize_workers opt : 2 ≤ Workers opt → Workers (normalize opt) = Workers opt.
Proof.
  intros Hw. unfold normalize. destruct (Z.leb_spec (Workers opt) 0); [lia|].
  by destruct (MaxInFlight opt <? Workers opt).
Qed.

(** X13.  The reorder buffer is not bounded by [MaxInFlight]: with two
    workers or more, whatever the [MaxInFlight] that the runtime makes
    channels of, and for every [n], there is an execution after which [n]
    results wait in the buffer, all three channels being empty, while one
    worker is still in the transform on the first item. *)
Theorem reorder_buffer_is_not_bounded opt v r closes (n : nat) :
  2 ≤ Workers opt →
  accepts lim (MaxInFlight (normalize opt)) →
  invoke (normalize opt) v = inl r →
  Z.of_nat n + 1 < int_max →
  ∃ rest b,
    reachable false (replicate (S n) v) closes opt
      (piled (normalize opt) v closes rest n [] b) ∧
    size b = n.
Proof.
  intros Hw Hacc Hinv Hn.
  pose proof (normalize_pool opt) as Hpool.
  pose proof (normalize_workers opt Hw) as Hwn.
  assert (Hcap : 0 < MaxInFlight (normalize opt)) by lia.
  destruct (Z.to_nat (Workers (normalize opt))) as [|[|m]] eqn:Hm; [lia|lia|].
  destruct (pile_grows (normalize opt) v r closes (replicate m WSelect) n Hcap Hinv
              0%nat [] ∅) as (b & Hrun & Hsize).
  { simpl. lia. }
  { apply lookup_empty. }
  { intros j _. apply lookup_empty. }
  exists (replicate m WSelect), b. split.
  - apply reachable_run. split; [done|].
    exists (MoreExamples.pile_up n). unfold MoreExamples.pile_up.
    rewrite run_app. unfold started, start. rewrite Hm. simpl replicate.
    rewrite (hold_first_runs (normalize opt) v (replicate n v) closes m Hcap).
    rewrite app_nil_r in Hrun. exact Hrun.
  - rewrite Hsize, map_size_empty. done.
Qed.

(** X14.  With one worker ([Workers] at most 1) nothing is ever out of
    order: the result the collector takes from [resultChan] is the one for
    [nextIndex], so the reorder buffer holds at most one result, the one
    emitted next. *)
Theorem one_worker_needs_no_reordering cancelled items closes opt (s : State) :
  Z.of_nat (length items) ≤ int_max →
  Workers opt ≤ 1 →
  reachable cancelled items closes opt s →
  (size (buffer s) ≤ 1)%nat ∧
  (∀ k, is_Some (buffer s !! k) → k = nextIndex s) ∧
  (∀ r, coll s = CRange → head (chan_buf (resultChan s)) = Some r →
        res_index r = nextIndex s).
Proof.
  intros Hfit Hw [_ [ls Hrun]]%reachable_run.
  pose proof (normalize_pool opt) as Hpool.
  pose proof (normalize_one_worker opt Hw) as Hone.
  assert (Hio : in_order s).
  { apply (run_in_order zeroR fn items (normalize opt) Hfit Hpool Hone ls _ s
             (start_safe zeroR fn items (normalize opt) Hpool cancelled closes)
             (start_in_order items (normalize opt) Hone cancelled closes) Hrun). }
  assert (Hkeys : ∀ k, is_Some (buffer s !! k) → k = nextIndex s).
  { intros k Hk. by destruct (io_buffer _ Hio k Hk). }
  split; [|split; [done|]].
  - destruct (buffer s !! nextIndex s) as [r|] eqn:Hn.
    + replace (buffer s) with ({[nextIndex s := r]} : gmap Z _).
      { rewrite map_size_singleton. lia. }
      apply map_eq. intros k. destruct (decide (k = nextIndex s)) as [->|Hne].
      * by rewrite lookup_singleton_eq.
      * rewrite lookup_singleton_ne by done. symmetry.
        destruct (buffer s !! k) eqn:Hk; [|done].
        destruct Hne. apply Hkeys. by eexists.
    + replace (buffer s) with (∅ : gmap Z (@Result R E Any)).
      { rewrite map_size_empty. lia. }
      symmetry. apply map_empty. intros k.
      destruct (buffer s !! k) eqn:Hk; [|done].
      rewrite (Hkeys k) in Hk by (by eexists). congruence.
  - intros r Hpc Hhead.
    pose proof (io_computed _ Hio) as Hc. rewrite Hpc in Hc. specialize (Hc eq_refl).
    unfold front, computed in Hc. rewrite Hpc in Hc.
    destruct (chan_buf (resultChan s)) as [|x buf]; [done|].
    injection Hhead as ->. simpl in Hc. destruct Hc as [Hx _].
    rewrite (no_keys s (nextIndex s) Hio) in Hx by congruence. lia.
Qed.

End Extras.

(** * The further properties on concrete runs *)

Module MoreRuns.

Import Examples MoreExamples.

Local Abbreviation reachable := (reachable limits 0).
Local Abbreviation quiescent := (quiescent 0).
Local Abbreviation sequential := (sequential 0).

Ltac fits := vm_compute; discriminate.
Ltac calc := vm_compute; first [reflexivity | discriminate | by intros [=] | done].
Ltac reached ls := exists ls; vm_compute; reflexivity.
Ltac rests :=
  let w := fresh "w" in
  let Hl := fresh "Hl" in
  intros [| | | | |w|w|w|w| | | | |] Hl;
  first [ vm_compute; reflexivity
        | destruct w as [|[|w]]; vm_compute; reflexivity
        | by destruct Hl ].

(** X1 on a run: of three items the second result is sent and not yet
    read. *)
Lemma results_are_of_the_transform_run :
  let opt := one_worker 0 false in
  let s := after double opt [1; 2; 3]
             (pass 0 ++ compute 0 ++ [CollNext; CollLookup; CollEmit]) in
  received s `prefix_of` emitted s ∧
  (length (emitted s) ≤ 3)%nat ∧
  ∀ n r, emitted s !! n = Some r →
    ∃ v, [1; 2; 3] !! n = Some v ∧
      match double (taskCtx opt) v with
      | Returns res err => r = mkResult res err
      | Panics p =>
          PanicAsError opt = true ∧
          r = mkResult 0 (Some (ErrPanic (mkPanicError p)))
      end.
Proof.
  intros opt s.
  apply (results_are_of_the_transform limits 0 double false [1; 2; 3] true opt s).
  - fits.
  - reached (pass 0 ++ compute 0 ++ [CollNext; CollLookup; CollEmit]).
Defined.

(** X2 on a run: two items through two workers, to completion. *)
Lemma completion_leaves_nothing_behind_run :
  let s := after double two_workers [1; 2] (overtaking ++ shutdown 2) in
  received s = sequential double (normalize two_workers) [1; 2] ∧
  length (received s) = 2%nat ∧
  sub s = SubDone ∧
  Forall (λ pc, pc = WDone) (workers s) ∧
  waiting s = false ∧
  coll s = CDone ExitDrained ∧
  taskChan s = Chan [] 2 true ∧
  resultChan s = Chan [] 2 true ∧
  output s = Chan [] 2 true.
Proof.
  intros s.
  apply (completion_leaves_nothing_behind limits 0 double false [1; 2] true two_workers s).
  - fits.
  - calc.
  - reached (overtaking ++ shutdown 2).
  - calc.
  - reflexivity.
  - calc.
  - rests.
Defined.

(** X3 on a run: [ctx] is cancelled while [input] is open and silent; the
    submitter stays at [range input]. *)
Lemma cancellation_releases_the_pool_run :
  let opt := one_worker 0 false in
  let s := after_with double false false opt [] cancel_idle in
  Forall (λ pc, pc = WDone) (workers s) ∧
  waiting s = false ∧
  chan_closed (resultChan s) = true ∧
  is_CDone (coll s) = true ∧
  chan_closed (output s) = true ∧
  (sub s = SubDone ∧ chan_closed (taskChan s) = true ∨
   sub s = SubRange ∧ input s = [] ∧ false = false ∧
   chan_closed (taskChan s) = false).
Proof.
  intros opt s.
  apply (cancellation_releases_the_pool limits 0 double false [] false opt s).
  - fits.
  - reached cancel_idle.
  - calc.
  - calc.
  - rests.
Defined.

(** X4 on a run: two results wait in the reorder buffer. *)
Lemma queues_and_pool_are_bounded_run :
  let s := after double two_workers [1; 2; 3] (pile_up 2) in
  Z.of_nat (length (chan_buf (taskChan s))) ≤ 2 ∧
  Z.of_nat (length (chan_buf (resultChan s))) ≤ 2 ∧
  Z.of_nat (length (chan_buf (output s))) ≤ 2 ∧
  Z.of_nat (length (workers s)) = 2 ∧
  Z.of_nat (count calling (workers s)) ≤ 2.
Proof.
  intros s.
  apply (queues_and_pool_are_bounded limits 0 double false [1; 2; 3] true two_workers s).
  - fits.
  - reached (pile_up 2).
Defined.

(** X6 on a run to completion with a negative [EarlyStopN]. *)
Lemma nonpositive_quota_never_stops_run :
  let opt := mkOptions 1 1 (-3) false 0 in
  let s := after double opt [1; 2] (pass 0 ++ pass 0 ++ shutdown 1) in
  coll s ≠ CDone ExitEarlyStop ∧
  (is_CDone (coll s) = true →
     coll s = CDone ExitDrained ∨
     coll s = CDone ExitCancelled ∧ ctxDone s = true).
Proof.
  intros opt s.
  apply (nonpositive_quota_never_stops limits 0 double false [1; 2] true opt s).
  - fits.
  - fits.
  - reached (pass 0 ++ pass 0 ++ shutdown 1).
Defined.

(** X7 on a run: the second of three items is computed, not yet sent. *)
Lemma never_more_results_than_items_run :
  let opt := one_worker 0 false in
  let s := after double opt [1; 2; 3] (pass 0 ++ compute 0) in
  0 ≤ index s ≤ 3 ∧
  Z.of_nat (length (emitted s)) ≤ index s ∧
  ([1; 2; 3] = [] → emitted s = []).
Proof.
  intros opt s.
  apply (never_more_results_than_items limits 0 double false [1; 2; 3] true opt s).
  - fits.
  - reached (pass 0 ++ compute 0).
Defined.

(** X8 on a run: the first item is with worker 0, the second is computed. *)
Lemma tasks_are_numbered_in_arrival_order_run :
  let s := after double two_workers [5; 6; 7] (pile_up 1) in
  (is_SubDone (sub s) = false →
     drop (Z.to_nat (index s)) [5; 6; 7] = held (sub s) ++ input s) ∧
  (∀ n t, chan_buf (taskChan s) !! n = Some t →
     0 ≤ task_index t < index s ∧
     [5; 6; 7] !! Z.to_nat (task_index t) = Some (task_value t)) ∧
  (∀ w t, workers s !! w = Some (WCall t) →
     0 ≤ task_index t < index s ∧
     [5; 6; 7] !! Z.to_nat (task_index t) = Some (task_value t)).
Proof.
  intros s.
  apply (tasks_are_numbered_in_arrival_order limits 0 double false [5; 6; 7] true
           two_workers s).
  - fits.
  - reached (pile_up 1).
Defined.

(** X9 on a run: the transform panics and [PanicAsError] is unset. *)
Lemma crash_needs_a_panicking_item_run :
  let opt := one_worker 0 false in
  PanicAsError opt = false ∧
  ∃ (i : nat) v r, [7] !! i = Some v ∧ boom (taskCtx opt) v = Panics r ∧
           CrashPanic "boom" = CrashPanic r.
Proof.
  intros opt.
  destruct (crash_needs_a_panicking_item limits 0 boom false [7] true opt)
    as (_ & _ & Hcrash); [fits|].
  apply (Hcrash (after boom opt [7] call_first) (CrashPanic "boom")).
  - reached call_first.
  - calc.
Defined.

(** X10 on a run to completion: 25 steps for two items and two workers. *)
Lemma executions_are_bounded_run :
  (length (overtaking ++ shutdown 2) ≤
   10 * length [1; 2] + Z.to_nat (Workers (normalize two_workers)) + 5)%nat.
Proof.
  apply (executions_are_bounded limits 0 double false [1; 2] true two_workers
           (overtaking ++ shutdown 2)
           (after double two_workers [1; 2] (overtaking ++ shutdown 2))).
  vm_compute. reflexivity.
Defined.

(** X11 on a run: the second result waits in the reorder buffer, and
    nowhere else. *)
Lemma no_index_in_two_places_run :
  let s := after double two_workers [1; 2; 3] (pile_up 2) in
  (occurrences s 1 ≤ 1)%nat.
Proof.
  intros s.
  apply (no_index_in_two_places limits 0 double false [1; 2; 3] true two_workers s 1).
  - fits.
  - reached (pile_up 2).
Defined.

(** X12 on a run: two results wait in the reorder buffer. *)
Lemma buffer_holds_results_to_come_run :
  let s := after double two_workers [1; 2; 3] (pile_up 2) in
  (∀ k, is_Some (buffer s !! k) →
     nextIndex s ≤ k ∧ Z.of_nat (length (emitted s)) ≤ k < index s) ∧
  (∀ r rest, chan_buf (resultChan s) = r :: rest →
     buffer s !! res_index r = None ∧
     Z.of_nat (length (emitted s)) ≤ res_index r) ∧
  (coll s = CDone ExitDrained → ctxDone s = false → buffer s = ∅).
Proof.
  intros s.
  apply (buffer_holds_results_to_come limits 0 double false [1; 2; 3] true two_workers s).
  - fits.
  - reached (pile_up 2).
Defined.

(** X13 for three results behind the first, with [MaxInFlight] 2. *)
Lemma reorder_buffer_is_not_bounded_run :
  ∃ rest b,
    reachable double false [1; 1; 1; 1] true two_workers
      (piled (normalize two_workers) 1 true rest 3 [] b) ∧
    size b = 3%nat.
Proof.
  apply (reorder_buffer_is_not_bounded limits 0 double two_workers 1 (mkResult 2 None)
           true 3).
  - fits.
  - vm_compute. repeat split; discriminate.
  - calc.
  - calc.
Defined.

(** X14 on a run: the collector has stored the second result, the one it
    sends next. *)
Lemma one_worker_needs_no_reordering_run :
  let opt := one_worker 0 false in
  let s := after double opt [1; 2; 3] (pass 0 ++ compute 0 ++ [CollNext]) in
  (size (buffer s) ≤ 1)%nat ∧
  (∀ k, is_Some (buffer s !! k) → k = nextIndex s) ∧
  (∀ r, coll s = CRange → head (chan_buf (resultChan s)) = Some r →
        res_index r = nextIndex s).
Proof.
  intros opt s.
  apply (one_worker_needs_no_reordering limits 0 double false [1; 2; 3] true opt s).
  - fits.
  - fits.
  - reached (pass 0 ++ compute 0 ++ [CollNext]).
Defined.

End MoreRuns.
